(** * HighlightedTextarea: the query tokenizer and its highlight renderer

    A shallow embedding of [escapeHtml] and [parseAndHighlight] of
    HighlightedTextarea.tsx.  A JavaScript string is a sequence of UTF-16
    code units, so it is modelled as a list of code units ([N]); indices and
    lengths are natural numbers (every subtraction of the source is guarded
    so that it never goes below zero).  The [while] loops are run with an
    explicit amount of fuel and fail ([None]) when it runs out; the theorems
    show that the fuel [S (length text)] is always enough. *)

From Stdlib Require Import String Ascii List Bool Arith NArith Lia.
Import ListNotations.

Local Open Scope nat_scope.

(** ** Strings *)

Definition unit16 := N.
Definition jsstring := list unit16.

(** An ASCII literal as a JavaScript string. *)
Definition str (s : string) : jsstring :=
  map N_of_ascii (list_ascii_of_string s).

Definition QUOT : unit16 := 34%N.      (* the ASCII double quote *)
Definition APOS : unit16 := 39%N.      (* the ASCII single quote *)
Definition RDQUO : unit16 := 8221%N.   (* U+201D, right double quotation mark *)
Definition BACKSLASH : unit16 := 92%N.
Definition AMP : unit16 := 38%N.
Definition LT : unit16 := 60%N.
Definition GT : unit16 := 62%N.
Definition LPAREN : unit16 := 40%N.
Definition RPAREN : unit16 := 41%N.
Definition EQUALS : unit16 := 61%N.

(** [text[i]]: a code unit, or [undefined] out of range. *)
Definition charAt (text : jsstring) (i : nat) : option unit16 := nth_error text i.

(** [text[i] === c] for a one-character literal [c]. *)
Definition isChar (o : option unit16) (c : unit16) : bool :=
  match o with
  | Some x => N.eqb x c
  | None => false
  end.

(** [a === b] on the results of two index expressions. *)
Definition same (a b : option unit16) : bool :=
  match a, b with
  | Some x, Some y => N.eqb x y
  | None, None => true
  | _, _ => false
  end.

(** [s.substring(a, b)]: both ends are clamped to the length, and swapped
    when they come in the wrong order. *)
Definition substring (s : jsstring) (a b : nat) : jsstring :=
  let a' := Nat.min a (length s) in
  let b' := Nat.min b (length s) in
  let lo := Nat.min a' b' in
  let hi := Nat.max a' b' in
  firstn (hi - lo) (skipn lo s).

(** [s.substring(a)]. *)
Definition substringFrom (s : jsstring) (a : nat) : jsstring := skipn a s.

(** [s.substr(i, len)]. *)
Definition substr (s : jsstring) (i len : nat) : jsstring := firstn len (skipn i s).

(** [s.replace(/c/g, by)] for a one-character pattern. *)
Definition replaceAll (c : unit16) (by_ : jsstring) (s : jsstring) : jsstring :=
  flat_map (fun x => if N.eqb x c then by_ else [x]) s.

(** [s.toUpperCase()], one code unit at a time.  Listed are the ASCII
    letters and every code unit whose upper-case form contains an ASCII
    letter (the Unicode simple and special case mappings); the host maps
    every other code unit to itself or to non-ASCII units, and since the
    result is only ever compared with the ASCII words of
    [logicalOperators], those are left as they are. *)
Definition upperUnit (c : unit16) : jsstring :=
  (if (97 <=? c) && (c <=? 122) then [c - 32]
   else if c =? 223 then [83; 83]          (* sharp s *)
   else if c =? 305 then [73]              (* dotless i *)
   else if c =? 329 then [700; 78]         (* n preceded by apostrophe *)
   else if c =? 383 then [83]              (* long s *)
   else if c =? 496 then [74; 780]         (* j with caron *)
   else if c =? 7830 then [72; 817]        (* h with line below *)
   else if c =? 7831 then [84; 776]        (* t with diaeresis *)
   else if c =? 7832 then [87; 778]        (* w with ring above *)
   else if c =? 7833 then [89; 778]        (* y with ring above *)
   else if c =? 7834 then [65; 702]        (* a with right half ring *)
   else if c =? 64256 then [70; 70]        (* ligatures ff fi fl ffi ffl st st *)
   else if c =? 64257 then [70; 73]
   else if c =? 64258 then [70; 76]
   else if c =? 64259 then [70; 70; 73]
   else if c =? 64260 then [70; 70; 76]
   else if c =? 64261 then [83; 84]
   else if c =? 64262 then [83; 84]
   else [c])%N.

Definition toUpperCase (s : jsstring) : jsstring := flat_map upperUnit s.

Fixpoint eqstr (a b : jsstring) : bool :=
  match a, b with
  | [], [] => true
  | x :: a', y :: b' => N.eqb x y && eqstr a' b'
  | _, _ => false
  end.

(** ** Loops *)

Notation "x <- a ;; b" :=
  (match a with Some x => b | None => None end)
  (right associativity, at level 60, a at next level).

(** [while (cond) body], at most [fuel] tests of the condition. *)
Fixpoint while {St : Type} (fuel : nat) (cond : St -> bool)
    (body : St -> option St) (s : St) : option St :=
  match fuel with
  | O => None
  | S fuel' =>
      if cond s then s' <- body s ;; while fuel' cond body s'
      else Some s
  end.

(** ** The data model

    The type [text] is written [text_], the field [value] of a token
    [tvalue] and the field [end] [end_], their names being taken. *)

Inductive TokenType : Type :=
  | logical_operator
  | key
  | value
  | quote
  | parenthesis
  | equals
  | text_.

Record Token : Type := mkToken {
  type : TokenType;
  tvalue : jsstring;
  start : nat;
  end_ : nat
}.

(** The class name written into the markup for a token type. *)
Definition typeName (t : TokenType) : jsstring :=
  match t with
  | logical_operator => str "logical-operator"
  | key => str "key"
  | value => str "value"
  | quote => str "quote"
  | parenthesis => str "parenthesis"
  | equals => str "equals"
  | text_ => str "text"
  end.

(** ** escapeHtml *)

Definition escapeHtml (unsafe : jsstring) : jsstring :=
  replaceAll APOS (str "&#039;")
    (replaceAll QUOT (str "&quot;")
      (replaceAll GT (str "&gt;")
        (replaceAll LT (str "&lt;")
          (replaceAll AMP (str "&amp;") unsafe)))).

(** ** parseAndHighlight: the scan *)

Definition logicalOperators : list jsstring := [str "AND"; str "OR"; str "NOT"].

(** [/\s/.test(char)]; [undefined] is tested as the word "undefined". *)
Definition isWhitespace (char : option unit16) : bool :=
  match char with
  | None => false
  | Some c =>
      ((9 <=? c) && (c <=? 13) || (c =? 32) || (c =? 160) || (c =? 5760)
       || (8192 <=? c) && (c <=? 8202) || (c =? 8232) || (c =? 8233)
       || (c =? 8239) || (c =? 8287) || (c =? 12288) || (c =? 65279))%N
  end.

Definition isQuoteChar (o : option unit16) : bool :=
  isChar o QUOT || isChar o APOS || isChar o RDQUO.

Definition push (tokens : list Token) (t : Token) : list Token := tokens ++ [t].

(** [text[i]] used as a string.  The scan takes it only where [text[i]] has
    just been compared equal to a character, so the [undefined] case is never
    reached; it is given the empty string. *)
Definition oneChar (o : option unit16) : jsstring :=
  match o with Some c => [c] | None => [] end.

Section Scan.

Variable fuel : nat.
Variable text : jsstring.
Let n := length text.

(** The search for the closing quote, from the position after the opening
    one. *)
Definition closingQuote (quoteType : option unit16) (i : nat) : option nat :=
  while fuel
    (fun i => (i <? n) && (negb (same (charAt text i) quoteType)
                           || ((0 <? i) && isChar (charAt text (i - 1)) BACKSLASH)))
    (fun i => Some (i + 1)) i.

(** The quote rule: the token and the new cursor. *)
Definition quoteRule (i : nat) : option (Token * nat) :=
  let quoteType := charAt text i in
  let start := i in
  i <- closingQuote quoteType (i + 1) ;;
  if (i <? n) && same (charAt text i) quoteType then
    Some (mkToken quote (substring text start (i + 1)) start (i + 1), i + 1)
  else
    Some (mkToken quote (substringFrom text start) start n, n).

(** The [for] loop over the operator words, left at the first word that
    is accepted. *)
Fixpoint operatorRule (ops : list jsstring) (i : nat) : option (Token * nat) :=
  match ops with
  | [] => None
  | op :: ops' =>
      if eqstr (toUpperCase (substr text i (length op))) op then
        let before := (i =? 0) || isWhitespace (charAt text (i - 1)) in
        let after := (n <=? i + length op) || isWhitespace (charAt text (i + length op)) in
        if before && after then
          Some (mkToken logical_operator (substring text i (i + length op)) i (i + length op),
                i + length op)
        else operatorRule ops' i
      else operatorRule ops' i
  end.

(** The key rule: [Some None] when it does not apply. *)
Definition keyRule (i : nat) : option (option (Token * nat)) :=
  if i <? n - 1 then
    equalsPos <- while fuel
                   (fun equalsPos => (equalsPos <? n) && negb (isChar (charAt text equalsPos) EQUALS))
                   (fun equalsPos => Some (equalsPos + 1)) i ;;
    if (equalsPos <? n) && isChar (charAt text equalsPos) EQUALS then
      let keyStart := i in
      keyEnd <- while fuel
                  (fun keyEnd => (keyStart <? keyEnd) && isWhitespace (charAt text (keyEnd - 1)))
                  (fun keyEnd => Some (keyEnd - 1)) equalsPos ;;
      if keyStart <? keyEnd then
        Some (Some (mkToken key (substring text keyStart keyEnd) keyStart keyEnd, keyEnd))
      else Some None
    else Some None
  else Some None.

(** The run of plain text from the cursor. *)
Definition textRun (i : nat) : option nat :=
  while fuel
    (fun i => (i <? n)
              && negb (isWhitespace (charAt text i))
              && negb (isChar (charAt text i) LPAREN)
              && negb (isChar (charAt text i) RPAREN)
              && negb (isChar (charAt text i) EQUALS)
              && negb (isChar (charAt text i) QUOT)
              && negb (isChar (charAt text i) APOS)
              && negb (isChar (charAt text i) RDQUO))
    (fun i => Some (i + 1)) i.

Definition textRule (i : nat) (tokens : list Token) : option (nat * list Token) :=
  let start := i in
  i <- textRun i ;;
  if start <? i then Some (i, push tokens (mkToken text_ (substring text start i) start i))
  else Some (i, tokens).

(** One turn of the main loop, from cursor [i] with [tokens] collected. *)
Definition iteration (st : nat * list Token) : option (nat * list Token) :=
  let '(i, tokens) := st in
  if isWhitespace (charAt text i) then Some (i + 1, tokens)
  else if isChar (charAt text i) LPAREN || isChar (charAt text i) RPAREN then
    Some (i + 1, push tokens (mkToken parenthesis (oneChar (charAt text i)) i (i + 1)))
  else if isChar (charAt text i) EQUALS then
    Some (i + 1, push tokens (mkToken equals (str "=") i (i + 1)))
  else if isQuoteChar (charAt text i) then
    r <- quoteRule i ;; Some (snd r, push tokens (fst r))
  else
    match operatorRule logicalOperators i with
    | Some r => Some (snd r, push tokens (fst r))
    | None =>
        k <- keyRule i ;;
        match k with
        | Some r => Some (snd r, push tokens (fst r))
        | None => textRule i tokens
        end
    end.

Definition scan : option (nat * list Token) :=
  while fuel (fun st => fst st <? n) iteration (0, []).

End Scan.

(** The first half of [parseAndHighlight]: the token sequence. *)
Definition tokenizeFuel (fuel : nat) (text : jsstring) : option (list Token) :=
  st <- scan fuel text ;; Some (snd st).

Definition tokenize (text : jsstring) : option (list Token) :=
  tokenizeFuel (S (length text)) text.

(** ** parseAndHighlight: the markup *)

Definition wrap (token : Token) : jsstring :=
  str "<span class=" ++ [QUOT] ++ str "token-" ++ typeName (type token) ++ [QUOT]
    ++ str ">" ++ escapeHtml (tvalue token) ++ str "</span>".

(** The body of [tokens.forEach]: [result] and [lastPos] are the state. *)
Definition renderToken (text : jsstring) (acc : jsstring * nat) (token : Token)
    : jsstring * nat :=
  let '(result, lastPos) := acc in
  let result :=
    if lastPos <? start token
    then result ++ escapeHtml (substring text lastPos (start token))
    else result in
  (result ++ wrap token, end_ token).

Definition render (text : jsstring) (tokens : list Token) : jsstring :=
  let '(result, lastPos) := fold_left (renderToken text) tokens ([], 0) in
  if lastPos <? length text
  then result ++ escapeHtml (substringFrom text lastPos)
  else result.

Definition parseAndHighlight (text : jsstring) : option jsstring :=
  tokens <- tokenize text ;; Some (render text tokens).

(** ** Notions used to state the properties *)

(** Equality with an upper-case ASCII word, letter case ignored. *)
Fixpoint eqIgnoreCase (s op : jsstring) : bool :=
  match s, op with
  | [], [] => true
  | c :: s', o :: op' => ((c =? o) || (c =? o + 32))%N && eqIgnoreCase s' op'
  | _, _ => false
  end.

(** The letters of the operator words. *)
Definition opLetter (o : unit16) : bool :=
  existsb (N.eqb o) [65; 68; 78; 79; 82; 84]%N.

(** The word [op] stands at [i] as a whole word: nothing or whitespace
    before it, whitespace or the end of the input after it. *)
Definition wholeWord (text : jsstring) (i : nat) (op : jsstring) : bool :=
  eqIgnoreCase (substr text i (length op)) op
  && ((i =? 0) || isWhitespace (charAt text (i - 1)))
  && ((length text <=? i + length op) || isWhitespace (charAt text (i + length op))).

(** [k] holds the quote character [q], and no backslash stands just
    before it. *)
Definition closesAt (text : jsstring) (q : unit16) (k : nat) : bool :=
  isChar (charAt text k) q && negb (isChar (charAt text (k - 1)) BACKSLASH).

(** A character of a plain-text run: neither whitespace, nor a parenthesis,
    nor the equals sign, nor a quote character. *)
Definition plainChar (text : jsstring) (k : nat) : bool :=
  negb (isWhitespace (charAt text k))
  && negb (isChar (charAt text k) LPAREN)
  && negb (isChar (charAt text k) RPAREN)
  && negb (isChar (charAt text k) EQUALS)
  && negb (isChar (charAt text k) QUOT)
  && negb (isChar (charAt text k) APOS)
  && negb (isChar (charAt text k) RDQUO).

(** A token with a non-empty span inside the input, whose content is the
    text of its span. *)
Record tokenOK (text : jsstring) (t : Token) : Prop := {
  ok_nonempty : start t < end_ t;
  ok_bound : end_ t <= length text;
  ok_value : tvalue t = substring text (start t) (end_ t)
}.

(** What the type of a token says about it: no token is a [value], and a
    [logical_operator] is one of the operator words standing as a whole
    word. *)
Definition kindOK (text : jsstring) (t : Token) : Prop :=
  match type t with
  | value => False
  | logical_operator =>
      exists op, In op logicalOperators
                 /\ wholeWord text (start t) op = true
                 /\ end_ t = start t + length op
  | _ => True
  end.

(** Each token starts at or after [lo] and at or after the end of the one
    before it. *)
Fixpoint chain (lo : nat) (tokens : list Token) : Prop :=
  match tokens with
  | [] => True
  | t :: rest => lo <= start t /\ chain (end_ t) rest
  end.

(** The end of the last token, [lo] when there is none. *)
Definition lastEnd (lo : nat) (tokens : list Token) : nat :=
  fold_left (fun _ t => end_ t) tokens lo.

(** Position [p] lies in the span of one of the tokens. *)
Definition covered (tokens : list Token) (p : nat) : Prop :=
  exists t, In t tokens /\ start t <= p < end_ t.

(** The invariant of the main loop. *)
Definition scanInv (text : jsstring) (st : nat * list Token) : Prop :=
  fst st <= length text
  /\ Forall (tokenOK text) (snd st)
  /\ Forall (kindOK text) (snd st)
  /\ chain 0 (snd st)
  /\ lastEnd 0 (snd st) <= fst st
  /\ forall p, p < fst st ->
               covered (snd st) p \/ isWhitespace (charAt text p) = true.

(** The entity table of [escapeHtml], one character at a time. *)
Definition escapeChar (c : unit16) : jsstring :=
  if (c =? AMP)%N then str "&amp;"
  else if (c =? LT)%N then str "&lt;"
  else if (c =? GT)%N then str "&gt;"
  else if (c =? QUOT)%N then str "&quot;"
  else if (c =? APOS)%N then str "&#039;"
  else [c].

(** What the renderer appends to its result, in order: the filler before a
    token, the token in its container, and the filler after the last
    token. *)
Inductive Piece : Type :=
  | Filler (s : jsstring)
  | Wrapped (t : Token).

Fixpoint pieces (text : jsstring) (lastPos : nat) (tokens : list Token) : list Piece :=
  match tokens with
  | [] => if lastPos <? length text then [Filler (substringFrom text lastPos)] else []
  | token :: rest =>
      (if lastPos <? start token
       then [Filler (substring text lastPos (start token))] else [])
      ++ Wrapped token :: pieces text (end_ token) rest
  end.

(** The markup of a piece, and the input text it stands for. *)
Definition emit (p : Piece) : jsstring :=
  match p with
  | Filler s => escapeHtml s
  | Wrapped t => wrap t
  end.

Definition raw (p : Piece) : jsstring :=
  match p with
  | Filler s => s
  | Wrapped t => tvalue t
  end.

Definition fillers (ps : list Piece) : list jsstring :=
  flat_map (fun p => match p with Filler s => [s] | Wrapped _ => [] end) ps.

(** [strip_tags]: everything from a [<] to the next [>] is dropped. *)
Fixpoint stripFrom (inTag : bool) (s : jsstring) : jsstring :=
  match s with
  | [] => []
  | c :: r =>
      if inTag then stripFrom (negb (c =? GT)%N) r
      else if (c =? LT)%N then stripFrom true r
      else c :: stripFrom false r
  end.

Definition strip_tags (s : jsstring) : jsstring := stripFrom false s.

(** Undoing the entity escaping: each of the five entities is read back as
    its character, left to right. *)
Fixpoint startsWith (p s : jsstring) : bool :=
  match p, s with
  | [], _ => true
  | x :: p', y :: s' => (x =? y)%N && startsWith p' s'
  | _ :: _, [] => false
  end.

Definition entityAt (s : jsstring) : option (unit16 * nat) :=
  if startsWith (str "&amp;") s then Some (AMP, 5)
  else if startsWith (str "&lt;") s then Some (LT, 4)
  else if startsWith (str "&gt;") s then Some (GT, 4)
  else if startsWith (str "&quot;") s then Some (QUOT, 6)
  else if startsWith (str "&#039;") s then Some (APOS, 6)
  else None.

Fixpoint unescapeFrom (skip : nat) (s : jsstring) : jsstring :=
  match s with
  | [] => []
  | c :: r =>
      match skip with
      | S k => unescapeFrom k r
      | O =>
          match entityAt s with
          | Some (ch, len) => ch :: unescapeFrom (len - 1) r
          | None => c :: unescapeFrom 0 r
          end
      end
  end.

Definition unescapeHtml (s : jsstring) : jsstring := unescapeFrom 0 s.

(** The input of the quote-handling example: the word key, an equals sign
    and a quoted literal with two escaped inner quotes. *)
Definition quotedInput : jsstring :=
  str "key=" ++ [QUOT] ++ str "a \" ++ [QUOT] ++ str "b\" ++ [QUOT] ++ str " c" ++ [QUOT].

(** What a turn of the main loop appends at cursor [i], rule by rule: the
    token of the parenthesis rule, of the equals rule, of the quote rule
    (closed at [j], or open to the end of the input), of the operator rule, of
    the key rule (the next equals sign at [e], the key ending at [k]) and of
    the text rule (no equals sign ahead, the run ending at [j]). *)
Inductive Emits (text : jsstring) (i : nat) : Token -> Prop :=
  | emits_parenthesis (c : unit16) :
      charAt text i = Some c -> c = LPAREN \/ c = RPAREN ->
      Emits text i (mkToken parenthesis [c] i (i + 1))
  | emits_equals :
      charAt text i = Some EQUALS ->
      Emits text i (mkToken equals (str "=") i (i + 1))
  | emits_quote_closed (q : unit16) (j : nat) :
      charAt text i = Some q -> q = QUOT \/ q = APOS \/ q = RDQUO ->
      i < j < length text -> closesAt text q j = true ->
      (forall k, i < k < j -> closesAt text q k = false) ->
      Emits text i (mkToken quote (substring text i (j + 1)) i (j + 1))
  | emits_quote_open (q : unit16) :
      charAt text i = Some q -> q = QUOT \/ q = APOS \/ q = RDQUO ->
      (forall k, i < k < length text -> closesAt text q k = false) ->
      Emits text i (mkToken quote (substringFrom text i) i (length text))
  | emits_operator (op : jsstring) :
      In op logicalOperators -> wholeWord text i op = true ->
      Emits text i (mkToken logical_operator (substring text i (i + length op))
                            i (i + length op))
  | emits_key (e k : nat) :
      plainChar text i = true ->
      (forall op, In op logicalOperators -> wholeWord text i op = false) ->
      i < k <= e -> e < length text ->
      charAt text e = Some EQUALS ->
      (forall p, i <= p < e -> charAt text p <> Some EQUALS) ->
      (forall p, k <= p < e -> isWhitespace (charAt text p) = true) ->
      isWhitespace (charAt text (k - 1)) = false ->
      Emits text i (mkToken key (substring text i k) i k)
  | emits_text (j : nat) :
      plainChar text i = true ->
      (forall op, In op logicalOperators -> wholeWord text i op = false) ->
      (forall p, i <= p < length text -> charAt text p <> Some EQUALS) ->
      i < j <= length text ->
      (forall p, i <= p < j -> plainChar text p = true) ->
      (j < length text -> plainChar text j = false) ->
      Emits text i (mkToken text_ (substring text i j) i j).

(** A token moved [d] positions to the right. *)
Definition shiftToken (d : nat) (t : Token) : Token :=
  mkToken (type t) (tvalue t) (d + start t) (d + end_ t).

Definition shiftResult (d : nat) (r : Token * nat) : Token * nat :=
  (shiftToken d (fst r), d + snd r).

Definition shiftState (d : nat) (st : nat * list Token) : nat * list Token :=
  (d + fst st, map (shiftToken d) (snd st)).

(** * Properties *)

(** ** The scan and the renderer on small inputs *)

Example tokenize_empty : tokenize [] = Some [].
Proof. reflexivity. Qed.

Example render_empty : render [] [] = [].
Proof. reflexivity. Qed.

Example tokenize_blank : tokenize (str "  ") = Some [].
Proof. reflexivity. Qed.

Example tokenize_open_quote :
  tokenize (str "key=" ++ [QUOT] ++ str "open") =
  Some [mkToken key (str "key") 0 3;
        mkToken equals (str "=") 3 4;
        mkToken quote ([QUOT] ++ str "open") 4 9].
Proof. vm_compute. reflexivity. Qed.

Example highlight_pair :
  parseAndHighlight (str "a = b") =
  Some (str "<span class=" ++ [QUOT] ++ str "token-key" ++ [QUOT] ++ str ">a</span> "
        ++ str "<span class=" ++ [QUOT] ++ str "token-equals" ++ [QUOT] ++ str ">=</span> "
        ++ str "<span class=" ++ [QUOT] ++ str "token-text" ++ [QUOT] ++ str ">b</span>").
Proof. vm_compute. reflexivity. Qed.

(** ** Loops: total correctness and fuel *)

Lemma while_total {St : Type} (I : St -> Prop) (m : St -> nat)
    (cond : St -> bool) (body : St -> option St) :
  (forall s, I s -> cond s = true ->
             exists s', body s = Some s' /\ I s' /\ m s' < m s) ->
  forall fuel s, I s -> m s < fuel ->
  exists s', while fuel cond body s = Some s' /\ I s' /\ cond s' = false.
Proof.
  intros Hbody fuel. induction fuel as [|fuel IH]; intros s HI Hm; [lia|].
  simpl. destruct (cond s) eqn:Hc.
  - destruct (Hbody s HI Hc) as (s' & -> & HI' & Hlt).
    apply IH; [assumption | lia].
  - exists s. auto.
Qed.

Lemma while_more_fuel {St : Type} (cond : St -> bool) (body body' : St -> option St) :
  (forall s r, body s = Some r -> body' s = Some r) ->
  forall fuel fuel' s r, fuel <= fuel' ->
  while fuel cond body s = Some r -> while fuel' cond body' s = Some r.
Proof.
  intros Hb fuel. induction fuel as [|fuel IH]; intros fuel' s r Hle H; [discriminate|].
  destruct fuel' as [|fuel']; [lia|]. simpl in *.
  destruct (cond s); [|assumption].
  destruct (body s) as [s'|] eqn:E; [|discriminate].
  rewrite (Hb _ _ E). apply IH; [lia | assumption].
Qed.

(** A loop that counts up to [n] while [p] holds stops at the first
    position from [i] where [p] fails, or at [n]. *)
Lemma while_up (n : nat) (cond p : nat -> bool) (fuel i : nat) :
  (forall j, cond j = (j <? n) && p j) ->
  i <= n -> n - i < fuel ->
  exists j, while fuel cond (fun i => Some (i + 1)) i = Some j
            /\ i <= j <= n
            /\ (forall k, i <= k < j -> p k = true)
            /\ (j < n -> p j = false).
Proof.
  intros Hc Hi Hf.
  destruct (while_total
              (fun j => i <= j <= n /\ forall k, i <= k < j -> p k = true)
              (fun j => n - j) cond (fun i => Some (i + 1))) with (fuel := fuel) (s := i)
    as (j & Hw & (Hr & Hp) & Hstop).
  - intros s (Hs & Hp) Hcs. rewrite Hc in Hcs.
    apply andb_true_iff in Hcs as (Hlt & Hps). apply Nat.ltb_lt in Hlt.
    exists (s + 1). repeat split; try lia.
    intros k Hk. destruct (Nat.eq_dec k s) as [->|]; [assumption | apply Hp; lia].
  - split; [lia | intros; lia].
  - lia.
  - exists j. repeat split; try assumption; try lia.
    intros Hlt. rewrite Hc in Hstop. apply Nat.ltb_lt in Hlt. rewrite Hlt in Hstop.
    assumption.
Qed.

(** A loop that counts down to [lo] while [p] holds just below the
    counter. *)
Lemma while_down (lo : nat) (cond p : nat -> bool) (fuel hi : nat) :
  (forall k, cond k = (lo <? k) && p (k - 1)) ->
  lo <= hi -> hi - lo < fuel ->
  exists j, while fuel cond (fun k => Some (k - 1)) hi = Some j
            /\ lo <= j <= hi
            /\ (forall k, j <= k < hi -> p k = true)
            /\ (lo < j -> p (j - 1) = false).
Proof.
  intros Hc Hi Hf.
  destruct (while_total
              (fun j => lo <= j <= hi /\ forall k, j <= k < hi -> p k = true)
              (fun j => j - lo) cond (fun k => Some (k - 1))) with (fuel := fuel) (s := hi)
    as (j & Hw & (Hr & Hp) & Hstop).
  - intros s (Hs & Hp) Hcs. rewrite Hc in Hcs.
    apply andb_true_iff in Hcs as (Hlt & Hps). apply Nat.ltb_lt in Hlt.
    exists (s - 1). repeat split; try lia.
    intros k Hk. destruct (Nat.eq_dec k (s - 1)) as [->|]; [assumption | apply Hp; lia].
  - split; [lia | intros; lia].
  - lia.
  - exists j. repeat split; try assumption; try lia.
    intros Hlt. rewrite Hc in Hstop. apply Nat.ltb_lt in Hlt. rewrite Hlt in Hstop.
    assumption.
Qed.

(** ** Strings *)

Lemma substring_ordered (s : jsstring) (a b : nat) :
  a <= b -> b <= length s -> substring s a b = firstn (b - a) (skipn a s).
Proof.
  intros Hab Hb. unfold substring.
  rewrite (Nat.min_l a), (Nat.min_l b), (Nat.min_l a b), (Nat.max_r a b) by lia.
  reflexivity.
Qed.

Lemma substring_length (s : jsstring) (a b : nat) :
  a <= b -> b <= length s -> length (substring s a b) = b - a.
Proof.
  intros Hab Hb. rewrite substring_ordered by assumption.
  rewrite length_firstn, length_skipn. lia.
Qed.

Lemma substring_to_end (s : jsstring) (a : nat) :
  a <= length s -> substringFrom s a = substring s a (length s).
Proof.
  intros Ha. rewrite substring_ordered by lia. unfold substringFrom.
  rewrite firstn_all2; [reflexivity | rewrite length_skipn; lia].
Qed.

Lemma substring_one (s : jsstring) (i : nat) (c : unit16) :
  charAt s i = Some c -> substring s i (i + 1) = [c].
Proof.
  unfold charAt. intros H.
  assert (Hi : i < length s) by (apply nth_error_Some; congruence).
  rewrite substring_ordered by lia.
  replace (i + 1 - i) with 1 by lia.
  revert i H Hi. induction s as [|x s IH]; intros [|i] H Hi; simpl in *; try lia.
  - congruence.
  - apply IH; [assumption | lia].
Qed.

Lemma firstn_plus {A : Type} (x y : nat) (l : list A) :
  firstn (x + y) l = firstn x l ++ firstn y (skipn x l).
Proof.
  revert l. induction x as [|x IH]; intros [|a l]; simpl; try reflexivity.
  - rewrite firstn_nil. reflexivity.
  - rewrite IH. reflexivity.
Qed.

Lemma substring_split (s : jsstring) (a b c : nat) :
  a <= b -> b <= c -> c <= length s ->
  substring s a c = substring s a b ++ substring s b c.
Proof.
  intros Hab Hbc Hc. rewrite !substring_ordered by lia.
  replace (c - a) with ((b - a) + (c - b)) by lia.
  rewrite firstn_plus, skipn_skipn. do 3 f_equal. lia.
Qed.

Lemma substring_whole (s : jsstring) : substring s 0 (length s) = s.
Proof.
  rewrite substring_ordered by lia. simpl. rewrite Nat.sub_0_r. apply firstn_all.
Qed.

Lemma substring_empty (s : jsstring) (a : nat) : a <= length s -> substring s a a = [].
Proof. intros H. rewrite substring_ordered by lia. rewrite Nat.sub_diag. reflexivity. Qed.

Lemma charAt_substring (s : jsstring) (a b k : nat) :
  a <= b -> b <= length s -> k < b - a ->
  nth_error (substring s a b) k = charAt s (a + k).
Proof.
  intros Hab Hb Hk. rewrite substring_ordered by assumption. unfold charAt.
  rewrite nth_error_firstn. destruct (Nat.ltb_spec k (b - a)); [|lia].
  apply nth_error_skipn.
Qed.

Lemma eqstr_eq (a b : jsstring) : eqstr a b = true <-> a = b.
Proof.
  revert b. induction a as [|x a IH]; intros [|y b]; simpl; split; try congruence.
  - intros H. apply andb_true_iff in H as (H1 & H2).
    apply N.eqb_eq in H1. apply IH in H2. congruence.
  - intros H. injection H as -> ->. rewrite N.eqb_refl. apply IH. reflexivity.
Qed.

(** ** Upper case and the operator words *)

Lemma upperUnit_head (c o : unit16) (r w : jsstring) :
  opLetter o = true -> forallb opLetter w = true ->
  upperUnit c ++ r = o :: w ->
  (c = o \/ c = (o + 32)%N) /\ r = w.
Proof.
  intros Ho Hw. unfold upperUnit.
  repeat match goal with
         | |- context [if ?b then _ else _] => destruct b eqn:?
         end;
    repeat match goal with
           | H : (_ =? _)%N = true |- _ => apply N.eqb_eq in H; subst
           end;
    simpl; intros E; injection E; clear E; intros; subst;
    try discriminate Ho; try discriminate Hw; try (split; [auto | reflexivity]).
  apply andb_true_iff in Heqb as (H1 & H2).
  apply N.leb_le in H1. right. lia.
Qed.

Lemma upperUnit_same (c o : unit16) :
  opLetter o = true -> c = o \/ c = (o + 32)%N -> upperUnit c = [o].
Proof.
  unfold opLetter. simpl. rewrite !orb_true_iff, !N.eqb_eq.
  intros [Ho|[Ho|[Ho|[Ho|[Ho|[Ho|Ho]]]]]] [Hc|Hc]; try discriminate Ho;
    subst; reflexivity.
Qed.

Lemma upperUnit_nonempty (c : unit16) : upperUnit c <> [].
Proof.
  unfold upperUnit.
  repeat match goal with
         | |- context [if ?b then _ else _] => destruct b
         end; discriminate.
Qed.

(** Comparing the upper-cased text with an operator word is comparing the
    text itself with the word, ASCII letter case ignored: no other code
    unit becomes one of the letters of the word. *)
Lemma toUpperCase_operator (op s : jsstring) :
  forallb opLetter op = true ->
  eqstr (toUpperCase s) op = eqIgnoreCase s op.
Proof.
  intros Hop. revert s. induction op as [|o op IH]; intros s.
  - destruct s as [|c s]; [reflexivity|]. simpl.
    destruct (upperUnit c) eqn:E; [exfalso; eapply upperUnit_nonempty; eauto | reflexivity].
  - simpl in Hop. apply andb_true_iff in Hop as (Ho & Hop).
    destruct s as [|c s]; [reflexivity|].
    change (toUpperCase (c :: s)) with (upperUnit c ++ toUpperCase s).
    simpl eqIgnoreCase.
    destruct ((c =? o) || (c =? o + 32))%N eqn:Hc.
    + assert (Hu : upperUnit c = [o]).
      { apply upperUnit_same; [assumption|].
        apply orb_true_iff in Hc as [Hc|Hc]; apply N.eqb_eq in Hc; auto. }
      rewrite Hu. simpl. rewrite N.eqb_refl. apply IH. assumption.
    + simpl. destruct (eqstr (upperUnit c ++ toUpperCase s) (o :: op)) eqn:E; [|reflexivity].
      apply eqstr_eq in E. apply upperUnit_head in E as (Hco & _); try assumption.
      apply orb_false_iff in Hc as (H1 & H2).
      apply N.eqb_neq in H1, H2. tauto.
Qed.

Lemma eqIgnoreCase_length (s op : jsstring) :
  eqIgnoreCase s op = true -> length s = length op.
Proof.
  revert op. induction s as [|c s IH]; intros [|o op]; simpl; try congruence.
  intros H. apply andb_true_iff in H as (_ & H). f_equal. auto.
Qed.

Lemma operators_letters : Forall (fun op => forallb opLetter op = true) logicalOperators.
Proof. repeat constructor. Qed.

(** ** The rules of the scan, one by one *)

Section Rules.

Variable fuel : nat.
Variable text : jsstring.
Hypothesis enough : length text < fuel.

Lemma charAt_Some (i : nat) : i < length text -> exists c, charAt text i = Some c.
Proof.
  intros H. unfold charAt. destruct (nth_error text i) eqn:E; [eauto|].
  apply nth_error_None in E. lia.
Qed.

Lemma closingQuote_spec (q : unit16) (i : nat) :
  i < length text ->
  exists j, closingQuote fuel text (Some q) (i + 1) = Some j
            /\ i < j <= length text
            /\ (forall k, i < k < j -> closesAt text q k = false)
            /\ (j < length text -> closesAt text q j = true).
Proof.
  intros Hi.
  destruct (while_up (length text)
              (fun i => (i <? length text)
                        && (negb (same (charAt text i) (Some q))
                            || ((0 <? i) && isChar (charAt text (i - 1)) BACKSLASH)))
              (fun k => negb (same (charAt text k) (Some q))
                        || ((0 <? k) && isChar (charAt text (k - 1)) BACKSLASH))
              fuel (i + 1))
    as (j & Hw & Hr & Hbefore & Hat); try reflexivity; try lia.
  assert (Hp : forall k, 0 < k ->
               negb (same (charAt text k) (Some q))
               || ((0 <? k) && isChar (charAt text (k - 1)) BACKSLASH)
               = negb (closesAt text q k)).
  { intros k Hk. unfold closesAt. apply Nat.ltb_lt in Hk. rewrite Hk. simpl.
    replace (same (charAt text k) (Some q)) with (isChar (charAt text k) q)
      by (destruct (charAt text k); reflexivity).
    rewrite negb_andb, negb_involutive. reflexivity. }
  exists j. split; [exact Hw|]. split; [lia|]. split.
  - intros k Hk. specialize (Hbefore k ltac:(lia)). rewrite Hp in Hbefore by lia.
    destruct (closesAt text q k); [discriminate | reflexivity].
  - intros Hj. specialize (Hat Hj). rewrite Hp in Hat by lia.
    destruct (closesAt text q j); [reflexivity | discriminate].
Qed.

(** The quote rule closes the token at the first closing quote, and at the
    end of the input when there is none. *)
Lemma quoteRule_spec (q : unit16) (i : nat) :
  charAt text i = Some q ->
  exists j, i < j <= length text
            /\ (forall k, i < k < j -> closesAt text q k = false)
            /\ (j < length text -> closesAt text q j = true)
            /\ quoteRule fuel text i =
               Some (if j <? length text
                     then (mkToken quote (substring text i (j + 1)) i (j + 1), j + 1)
                     else (mkToken quote (substringFrom text i) i (length text),
                           length text)).
Proof.
  intros Hq.
  assert (Hi : i < length text) by (apply nth_error_Some; unfold charAt in Hq; congruence).
  destruct (closingQuote_spec q i Hi) as (j & Hw & Hr & Hbefore & Hat).
  exists j. repeat split; try assumption; try lia.
  unfold quoteRule. rewrite Hq, Hw.
  destruct (Nat.ltb_spec j (length text)) as [Hj|Hj]; [|reflexivity].
  specialize (Hat Hj). unfold closesAt in Hat.
  apply andb_true_iff in Hat as (Hat & _).
  replace (same (charAt text j) (Some q)) with (isChar (charAt text j) q)
    by (destruct (charAt text j); reflexivity).
  rewrite Hat. reflexivity.
Qed.

(** The operator rule takes the first word of the list that stands as a
    whole word at the cursor. *)
Lemma operatorRule_spec (ops : list jsstring) (i : nat) :
  Forall (fun op => forallb opLetter op = true) ops ->
  operatorRule text ops i =
  match find (wholeWord text i) ops with
  | Some op =>
      Some (mkToken logical_operator (substring text i (i + length op)) i (i + length op),
            i + length op)
  | None => None
  end.
Proof.
  induction 1 as [|op ops Hop _ IH]; [reflexivity|].
  simpl. rewrite toUpperCase_operator by assumption. unfold wholeWord at 1.
  rewrite IH.
  destruct (eqIgnoreCase (substr text i (length op)) op); [|reflexivity].
  simpl. destruct (_ && _); reflexivity.
Qed.

Lemma wholeWord_bound (i : nat) (op : jsstring) :
  i <= length text -> wholeWord text i op = true -> i + length op <= length text.
Proof.
  unfold wholeWord. intros Hi H.
  apply andb_true_iff in H as (H & _). apply andb_true_iff in H as (H & _).
  apply eqIgnoreCase_length in H. unfold substr in H.
  rewrite length_firstn, length_skipn in H. lia.
Qed.

(** The key rule looks for the first equals sign from the cursor and
    steps back over the whitespace before it. *)
Lemma keyRule_spec (i : nat) :
  i < length text ->
  exists e, i <= e <= length text
    /\ (forall p, i <= p < e -> isChar (charAt text p) EQUALS = false)
    /\ (e < length text -> isChar (charAt text e) EQUALS = true)
    /\ ((e = length text /\ keyRule fuel text i = Some None)
        \/ (e < length text
            /\ exists k, i <= k <= e
                 /\ (forall p, k <= p < e -> isWhitespace (charAt text p) = true)
                 /\ (i < k -> isWhitespace (charAt text (k - 1)) = false)
                 /\ keyRule fuel text i =
                    Some (if i <? k
                          then Some (mkToken key (substring text i k) i k, k)
                          else None))).
Proof.
  intros Hi.
  destruct (while_up (length text)
              (fun e => (e <? length text) && negb (isChar (charAt text e) EQUALS))
              (fun e => negb (isChar (charAt text e) EQUALS)) fuel i)
    as (e & Hw & Hr & Hbefore & Hat); try reflexivity; try lia.
  exists e. split; [lia|]. split; [|split].
  - intros p Hp. apply Hbefore in Hp. apply negb_true_iff in Hp. exact Hp.
  - intros He. apply Hat in He. apply negb_false_iff in He. exact He.
  - destruct (Nat.ltb_spec e (length text)) as [He|He].
    + right. split; [assumption|].
      destruct (while_down i
                  (fun k => (i <? k) && isWhitespace (charAt text (k - 1)))
                  (fun k => isWhitespace (charAt text k)) fuel e)
        as (k & Hk & Hkr & Hws & Hstop); try reflexivity; try lia.
      exists k. repeat split; try assumption; try lia.
      unfold keyRule.
      destruct (Nat.ltb_spec i (length text - 1)) as [Hg|Hg].
      * rewrite Hw.
        apply Hat in He as Heq. apply negb_false_iff in Heq. rewrite Heq.
        apply Nat.ltb_lt in He. rewrite He. simpl. rewrite Hk.
        destruct (i <? k); reflexivity.
      * destruct (Nat.ltb_spec i k); [lia | reflexivity].
    + left. split; [lia|]. unfold keyRule.
      destruct (i <? length text - 1); [|reflexivity].
      rewrite Hw. destruct (Nat.ltb_spec e (length text)); [lia | reflexivity].
Qed.

(** The plain-text run stops at the first character that is not plain. *)
Lemma textRun_spec (i : nat) :
  i <= length text ->
  exists j, textRun fuel text i = Some j
            /\ i <= j <= length text
            /\ (forall k, i <= k < j -> plainChar text k = true)
            /\ (j < length text -> plainChar text j = false).
Proof.
  intros Hi. apply while_up; try lia.
  intros j. unfold plainChar. rewrite !andb_assoc. reflexivity.
Qed.

(** From a plain character the run is not empty. *)
Lemma textRun_advances (i : nat) :
  i < length text -> plainChar text i = true ->
  exists j, textRun fuel text i = Some j /\ i < j <= length text.
Proof.
  intros Hi Hp. destruct (textRun_spec i) as (j & Hw & Hr & _ & Hat); [lia|].
  exists j. split; [assumption|].
  destruct (Nat.eq_dec j i) as [->|]; [|lia].
  rewrite Hat in Hp by assumption. discriminate.
Qed.

Lemma plainChar_split (i : nat) :
  plainChar text i = true ->
  isWhitespace (charAt text i) = false
  /\ isChar (charAt text i) LPAREN || isChar (charAt text i) RPAREN = false
  /\ isChar (charAt text i) EQUALS = false
  /\ isQuoteChar (charAt text i) = false.
Proof.
  unfold plainChar, isQuoteChar. rewrite !andb_true_iff, !negb_true_iff.
  intros ((((((-> & ->) & ->) & ->) & ->) & ->) & ->). auto.
Qed.

Lemma plainChar_join (i : nat) :
  isWhitespace (charAt text i) = false ->
  isChar (charAt text i) LPAREN || isChar (charAt text i) RPAREN = false ->
  isChar (charAt text i) EQUALS = false ->
  isQuoteChar (charAt text i) = false ->
  plainChar text i = true.
Proof.
  unfold plainChar, isQuoteChar. rewrite !orb_false_iff.
  intros -> (-> & ->) -> ((-> & ->) & ->). reflexivity.
Qed.

(** On a quote character the turn of the loop is the quote rule. *)
Lemma iteration_quote (i : nat) (tokens : list Token) :
  isQuoteChar (charAt text i) = true ->
  iteration fuel text (i, tokens) =
  (r <- quoteRule fuel text i ;; Some (snd r, push tokens (fst r))).
Proof.
  unfold isQuoteChar, iteration. destruct (charAt text i) as [c|]; [|discriminate].
  simpl. rewrite !orb_true_iff, !N.eqb_eq.
  intros [[->| ->]| ->]; reflexivity.
Qed.

(** On a plain character the turn of the loop tries the operator rule,
    the key rule and the text rule, in this order. *)
Lemma iteration_plain (i : nat) (tokens : list Token) :
  plainChar text i = true ->
  iteration fuel text (i, tokens) =
  match operatorRule text logicalOperators i with
  | Some r => Some (snd r, push tokens (fst r))
  | None =>
      k <- keyRule fuel text i ;;
      match k with
      | Some r => Some (snd r, push tokens (fst r))
      | None => textRule fuel text i tokens
      end
  end.
Proof.
  intros Hp. apply plainChar_split in Hp as (H1 & H2 & H3 & H4).
  unfold iteration. rewrite H1, H2, H3, H4. reflexivity.
Qed.

Lemma logicalOperators_length (op : jsstring) :
  In op logicalOperators -> 2 <= length op.
Proof. simpl. intros [<-|[<-|[<-|[]]]]; simpl; lia. Qed.

(** Every turn of the main loop either steps over one whitespace
    character or appends one well-formed token that starts at the cursor,
    and moves the cursor to its end. *)
Lemma iteration_step (i : nat) (tokens : list Token) :
  i < length text ->
  (isWhitespace (charAt text i) = true
   /\ iteration fuel text (i, tokens) = Some (i + 1, tokens))
  \/ (isWhitespace (charAt text i) = false
      /\ exists t, iteration fuel text (i, tokens) = Some (end_ t, push tokens t)
                   /\ start t = i /\ tokenOK text t /\ kindOK text t).
Proof.
  intros Hi. destruct (charAt_Some i Hi) as (c & Hc).
  destruct (isWhitespace (charAt text i)) eqn:Hws.
  { left. split; [reflexivity|]. unfold iteration. rewrite Hws. reflexivity. }
  right. split; [reflexivity|].
  destruct (isChar (charAt text i) LPAREN || isChar (charAt text i) RPAREN) eqn:Hpar.
  { exists (mkToken parenthesis (oneChar (charAt text i)) i (i + 1)).
    unfold iteration. rewrite Hws, Hpar. repeat split; simpl; try lia.
    rewrite Hc. simpl. symmetry. apply substring_one. assumption. }
  destruct (isChar (charAt text i) EQUALS) eqn:Heq.
  { exists (mkToken equals (str "=") i (i + 1)).
    unfold iteration. rewrite Hws, Hpar, Heq. repeat split; simpl; try lia.
    rewrite Hc in Heq. simpl in Heq. apply N.eqb_eq in Heq. subst c.
    symmetry. apply substring_one. assumption. }
  destruct (isQuoteChar (charAt text i)) eqn:Hquote.
  { rewrite iteration_quote by assumption.
    destruct (quoteRule_spec c i Hc) as (j & Hr & _ & _ & ->).
    destruct (Nat.ltb_spec j (length text)) as [Hj|Hj]; simpl.
    - exists (mkToken quote (substring text i (j + 1)) i (j + 1)).
      split; [reflexivity|]. repeat split; simpl; lia.
    - exists (mkToken quote (substringFrom text i) i (length text)).
      split; [reflexivity|]. repeat split; simpl; try lia.
      apply substring_to_end. lia. }
  assert (Hp : plainChar text i = true) by (apply plainChar_join; assumption).
  rewrite iteration_plain by assumption.
  rewrite operatorRule_spec by apply operators_letters.
  destruct (find (wholeWord text i) logicalOperators) as [op|] eqn:Hfind.
  { apply find_some in Hfind as (Hin & Hww).
    pose proof (wholeWord_bound i op ltac:(lia) Hww) as Hb.
    pose proof (logicalOperators_length op Hin) as Hl.
    exists (mkToken logical_operator (substring text i (i + length op)) i (i + length op)).
    split; [reflexivity|]. repeat split; simpl; try lia.
    unfold kindOK. simpl. exists op. auto. }
  destruct (keyRule_spec i Hi) as (e & He & _ & _ & [(_ & ->)|(_ & k & Hk & _ & _ & ->)]).
  - destruct (textRun_advances i Hi Hp) as (j & Hw & Hj).
    unfold textRule. rewrite Hw.
    destruct (Nat.ltb_spec i j); [|lia].
    exists (mkToken text_ (substring text i j) i j).
    split; [reflexivity|]. repeat split; simpl; lia.
  - destruct (Nat.ltb_spec i k).
    + exists (mkToken key (substring text i k) i k).
      split; [reflexivity|]. repeat split; simpl; lia.
    + destruct (textRun_advances i Hi Hp) as (j & Hw & Hj).
      unfold textRule. rewrite Hw.
      destruct (Nat.ltb_spec i j); [|lia].
      exists (mkToken text_ (substring text i j) i j).
      split; [reflexivity|]. repeat split; simpl; lia.
Qed.

End Rules.

(** ** More fuel changes nothing *)

Lemma while_fuel_mono {St : Type} (cond : St -> bool) (body : St -> option St)
    (fuel fuel' : nat) (s r : St) :
  fuel <= fuel' -> while fuel cond body s = Some r -> while fuel' cond body s = Some r.
Proof. apply while_more_fuel. auto. Qed.

(** Replaces a loop that succeeded on [fuel] by its result on [fuel']. *)
Ltac more_fuel fuel' Hle :=
  match goal with
  | H : context [while ?f ?c ?b ?s] |- _ =>
      lazymatch f with
      | fuel' => fail
      | _ =>
          let E := fresh "E" in
          destruct (while f c b s) eqn:E; [|discriminate H];
          apply (while_fuel_mono c b f fuel' _ _ Hle) in E; rewrite E
      end
  end.

Lemma quoteRule_more_fuel (fuel fuel' : nat) (text : jsstring) (i : nat) (r : Token * nat) :
  fuel <= fuel' -> quoteRule fuel text i = Some r -> quoteRule fuel' text i = Some r.
Proof.
  intros Hle H. unfold quoteRule, closingQuote in *. more_fuel fuel' Hle. exact H.
Qed.

Lemma keyRule_more_fuel (fuel fuel' : nat) (text : jsstring) (i : nat)
    (r : option (Token * nat)) :
  fuel <= fuel' -> keyRule fuel text i = Some r -> keyRule fuel' text i = Some r.
Proof.
  intros Hle H. unfold keyRule in *.
  destruct (i <? length text - 1); [|exact H].
  more_fuel fuel' Hle.
  destruct (_ && _); [|exact H].
  more_fuel fuel' Hle. exact H.
Qed.

Lemma textRule_more_fuel (fuel fuel' : nat) (text : jsstring) (i : nat)
    (tokens : list Token) (r : nat * list Token) :
  fuel <= fuel' -> textRule fuel text i tokens = Some r ->
  textRule fuel' text i tokens = Some r.
Proof.
  intros Hle H. unfold textRule, textRun in *. more_fuel fuel' Hle. exact H.
Qed.

Lemma iteration_more_fuel (fuel fuel' : nat) (text : jsstring)
    (st r : nat * list Token) :
  fuel <= fuel' -> iteration fuel text st = Some r -> iteration fuel' text st = Some r.
Proof.
  intros Hle. destruct st as (i, tokens). unfold iteration.
  destruct (isWhitespace _); [auto|].
  destruct (_ || _); [auto|].
  destruct (isChar _ EQUALS); [auto|].
  destruct (isQuoteChar _).
  - destruct (quoteRule fuel text i) eqn:E; [|discriminate].
    rewrite (quoteRule_more_fuel _ _ _ _ _ Hle E). auto.
  - destruct (operatorRule text logicalOperators i); [auto|].
    destruct (keyRule fuel text i) as [k|] eqn:E; [|discriminate].
    rewrite (keyRule_more_fuel _ _ _ _ _ Hle E).
    destruct k; [auto|]. apply textRule_more_fuel. assumption.
Qed.

Lemma tokenizeFuel_more_fuel (fuel fuel' : nat) (text : jsstring) (tokens : list Token) :
  fuel <= fuel' -> tokenizeFuel fuel text = Some tokens ->
  tokenizeFuel fuel' text = Some tokens.
Proof.
  intros Hle. unfold tokenizeFuel, scan.
  destruct (while fuel _ _ _) as [st|] eqn:E; [|discriminate].
  intros H.
  rewrite (while_more_fuel _ _ (iteration fuel' text)
             (fun s r => iteration_more_fuel fuel fuel' text s r Hle)
             fuel fuel' _ _ Hle E).
  exact H.
Qed.

(** ** The invariant of the main loop *)

Lemma lastEnd_push (lo : nat) (tokens : list Token) (t : Token) :
  lastEnd lo (push tokens t) = end_ t.
Proof. unfold lastEnd, push. rewrite fold_left_app. reflexivity. Qed.

Lemma chain_push (lo : nat) (tokens : list Token) (t : Token) :
  chain lo tokens -> lastEnd lo tokens <= start t -> chain lo (push tokens t).
Proof.
  revert lo. induction tokens as [|a tokens IH]; intros lo; simpl.
  - unfold lastEnd. simpl. auto.
  - intros (Hlo & Hc) Hl. split; [assumption|]. apply IH; assumption.
Qed.

Lemma covered_push (tokens : list Token) (t : Token) (p : nat) :
  covered tokens p -> covered (push tokens t) p.
Proof.
  intros (a & Hin & Hp). exists a. split; [|assumption].
  unfold push. apply in_or_app. auto.
Qed.

Lemma covered_last (tokens : list Token) (t : Token) (p : nat) :
  start t <= p < end_ t -> covered (push tokens t) p.
Proof.
  intros Hp. exists t. split; [|assumption].
  unfold push. apply in_or_app. right. left. reflexivity.
Qed.

Lemma scanInv_start (text : jsstring) : scanInv text (0, []).
Proof.
  unfold scanInv, lastEnd. simpl. repeat split; try constructor; try lia.
Qed.

Lemma scanInv_step (fuel : nat) (text : jsstring) (st : nat * list Token) :
  length text < fuel -> scanInv text st -> fst st < length text ->
  exists st', iteration fuel text st = Some st' /\ scanInv text st' /\ fst st < fst st'.
Proof.
  intros Hf Hinv Hi. destruct st as (i, tokens). simpl in Hi.
  destruct Hinv as (_ & Hok & Hkind & Hchain & Hlast & Hcov).
  simpl in Hok, Hkind, Hchain, Hlast, Hcov.
  destruct (iteration_step fuel text Hf i tokens Hi)
    as [(Hws & ->)|(Hws & t & -> & Hs & Ht & Hk)].
  - exists (i + 1, tokens). split; [reflexivity|]. split; [|simpl; lia].
    repeat split; simpl; try assumption; try lia.
    intros p Hp. destruct (Nat.eq_dec p i) as [->|]; [auto | apply Hcov; lia].
  - exists (end_ t, push tokens t). split; [reflexivity|].
    destruct Ht as [Hne Hb Hv]. split; [|simpl; lia].
    repeat split; simpl.
    + assumption.
    + apply Forall_app. split; [assumption|]. repeat constructor; assumption.
    + apply Forall_app. split; [assumption|]. repeat constructor; assumption.
    + apply chain_push; [assumption | lia].
    + rewrite lastEnd_push. lia.
    + intros p Hp. destruct (Nat.lt_ge_cases p i) as [Hlt|Hge].
      * destruct (Hcov p Hlt) as [Hc|Hw]; [left; apply covered_push; assumption | auto].
      * left. apply covered_last. lia.
Qed.

(** The scan succeeds on every input, with the cursor at the end of the
    input and the invariant established. *)
Lemma scan_total (fuel : nat) (text : jsstring) :
  length text < fuel ->
  exists tokens, scan fuel text = Some (length text, tokens)
                 /\ scanInv text (length text, tokens).
Proof.
  intros Hf.
  destruct (while_total (scanInv text) (fun st => length text - fst st)
              (fun st => fst st <? length text) (iteration fuel text))
    with (fuel := fuel) (s := (0, @nil Token))
    as ((i, tokens) & Hw & Hinv & Hstop).
  - intros st Hinv Hc. apply Nat.ltb_lt in Hc.
    destruct (scanInv_step fuel text st Hf Hinv Hc) as (st' & E & Hinv' & Hlt).
    exists st'. split; [assumption|]. split; [assumption|].
    destruct Hinv' as (Hb & _). lia.
  - apply scanInv_start.
  - simpl. lia.
  - simpl in Hstop. apply Nat.ltb_ge in Hstop.
    pose proof Hinv as (Hb & _). simpl in Hb.
    assert (i = length text) by lia. subst i.
    exists tokens. split; assumption.
Qed.

Lemma tokenize_total (text : jsstring) :
  exists tokens, tokenize text = Some tokens /\ scanInv text (length text, tokens).
Proof.
  destruct (scan_total (S (length text)) text) as (tokens & Hs & Hinv); [lia|].
  exists tokens. split; [|assumption].
  unfold tokenize, tokenizeFuel. rewrite Hs. reflexivity.
Qed.

(** ** Escaping *)

Lemma escapeHtml_app (a b : jsstring) :
  escapeHtml (a ++ b) = escapeHtml a ++ escapeHtml b.
Proof. unfold escapeHtml, replaceAll. rewrite !flat_map_app. reflexivity. Qed.

Lemma escapeHtml_one (c : unit16) : escapeHtml [c] = escapeChar c.
Proof.
  unfold escapeHtml, escapeChar, replaceAll.
  destruct (N.eqb_spec c AMP) as [->|H1]; [reflexivity|].
  destruct (N.eqb_spec c LT) as [->|H2]; [reflexivity|].
  destruct (N.eqb_spec c GT) as [->|H3]; [reflexivity|].
  destruct (N.eqb_spec c QUOT) as [->|H4]; [reflexivity|].
  destruct (N.eqb_spec c APOS) as [->|H5]; [reflexivity|].
  apply N.eqb_neq in H1, H2, H3, H4, H5.
  simpl. rewrite H1. simpl. rewrite H2. simpl. rewrite H3. simpl. rewrite H4.
  simpl. rewrite H5. reflexivity.
Qed.

(** The five passes of [escapeHtml] amount to one pass with the entity
    table. *)
Lemma escapeHtml_table (s : jsstring) : escapeHtml s = flat_map escapeChar s.
Proof.
  induction s as [|c s IH]; [reflexivity|].
  change (c :: s) with ([c] ++ s).
  rewrite escapeHtml_app, escapeHtml_one, IH. reflexivity.
Qed.

Lemma escapeChar_no_tag (c x : unit16) :
  In x (escapeChar c) -> x <> LT /\ x <> GT.
Proof.
  unfold escapeChar.
  destruct (N.eqb_spec c AMP); [|destruct (N.eqb_spec c LT);
    [|destruct (N.eqb_spec c GT); [|destruct (N.eqb_spec c QUOT);
      [|destruct (N.eqb_spec c APOS)]]]]; simpl;
    intros H; repeat (destruct H as [<-|H]; [split; (discriminate || assumption)|]);
    destruct H.
Qed.

Lemma escapeHtml_no_tag (s : jsstring) (x : unit16) :
  In x (escapeHtml s) -> x <> LT /\ x <> GT.
Proof.
  rewrite escapeHtml_table. intros H. apply in_flat_map in H as (c & _ & H).
  eapply escapeChar_no_tag; eassumption.
Qed.

Lemma entityAt_plain (c : unit16) (r : jsstring) :
  c <> AMP -> entityAt (c :: r) = None.
Proof.
  intros H.
  assert (F : forall p, startsWith (AMP :: p) (c :: r) = false).
  { intros p. cbn [startsWith].
    destruct (N.eqb_spec AMP c); [congruence | reflexivity]. }
  unfold entityAt.
  change (str "&amp;") with (AMP :: str "amp;").
  change (str "&lt;") with (AMP :: str "lt;").
  change (str "&gt;") with (AMP :: str "gt;").
  change (str "&quot;") with (AMP :: str "quot;").
  change (str "&#039;") with (AMP :: str "#039;").
  rewrite !F. reflexivity.
Qed.

Lemma unescape_escapeChar (c : unit16) (r : jsstring) :
  unescapeFrom 0 (escapeChar c ++ r) = c :: unescapeFrom 0 r.
Proof.
  unfold escapeChar.
  destruct (N.eqb_spec c AMP) as [->|H1]; [reflexivity|].
  destruct (N.eqb_spec c LT) as [->|H2]; [reflexivity|].
  destruct (N.eqb_spec c GT) as [->|H3]; [reflexivity|].
  destruct (N.eqb_spec c QUOT) as [->|H4]; [reflexivity|].
  destruct (N.eqb_spec c APOS) as [->|H5]; [reflexivity|].
  cbn [app unescapeFrom]. rewrite entityAt_plain by assumption. reflexivity.
Qed.

(** Unescaping undoes escaping. *)
Lemma unescape_escape (s : jsstring) : unescapeHtml (escapeHtml s) = s.
Proof.
  unfold unescapeHtml. rewrite escapeHtml_table.
  induction s as [|c s IH]; [reflexivity|].
  simpl. rewrite unescape_escapeChar, IH. reflexivity.
Qed.

(** ** The renderer *)

Lemma renderToken_fold (text : jsstring) (tokens : list Token)
    (result : jsstring) (lastPos : nat) :
  (let '(result', lastPos') := fold_left (renderToken text) tokens (result, lastPos) in
   if lastPos' <? length text
   then result' ++ escapeHtml (substringFrom text lastPos')
   else result')
  = result ++ flat_map emit (pieces text lastPos tokens).
Proof.
  revert result lastPos. induction tokens as [|t tokens IH]; intros result lastPos.
  - simpl. destruct (lastPos <? length text); simpl; rewrite ?app_nil_r; reflexivity.
  - cbn [fold_left pieces]. unfold renderToken at 2. rewrite IH.
    destruct (lastPos <? start t); cbn [app flat_map emit]; rewrite <- ?app_assoc;
      reflexivity.
Qed.

(** The markup is the concatenation of the markup of the pieces. *)
Lemma render_pieces (text : jsstring) (tokens : list Token) :
  render text tokens = flat_map emit (pieces text 0 tokens).
Proof. unfold render. apply (renderToken_fold text tokens [] 0). Qed.

Lemma stripFrom_plain (e r : jsstring) :
  (forall x, In x e -> x <> LT) ->
  stripFrom false (e ++ r) = e ++ stripFrom false r.
Proof.
  induction e as [|c e IH]; intros H; [reflexivity|].
  simpl. destruct (N.eqb_spec c LT) as [->|_].
  - exfalso. apply (H LT); [left|]; reflexivity.
  - f_equal. apply IH. intros x Hx. apply H. right. assumption.
Qed.

Lemma strip_wrap (t : Token) (r : jsstring) :
  stripFrom false (wrap t ++ r) = escapeHtml (tvalue t) ++ stripFrom false r.
Proof.
  unfold wrap. rewrite <- !app_assoc.
  transitivity (stripFrom false (escapeHtml (tvalue t) ++ str "</span>" ++ r)).
  - destruct (type t); reflexivity.
  - rewrite stripFrom_plain; [reflexivity|].
    intros x Hx. apply escapeHtml_no_tag in Hx. tauto.
Qed.

(** With the tags stripped, the markup of the pieces is the escaped text
    of the pieces. *)
Lemma strip_emit (ps : list Piece) :
  strip_tags (flat_map emit ps) = escapeHtml (flat_map raw ps).
Proof.
  unfold strip_tags. induction ps as [|p ps IH]; [reflexivity|].
  cbn [flat_map]. rewrite escapeHtml_app. destruct p as [s|t]; cbn [emit raw].
  - rewrite stripFrom_plain; [rewrite IH; reflexivity|].
    intros x Hx. apply escapeHtml_no_tag in Hx. tauto.
  - rewrite strip_wrap, IH. reflexivity.
Qed.

(** The pieces, read back as input text, are the input from [lastPos]
    on. *)
Lemma pieces_raw (text : jsstring) (tokens : list Token) (lastPos : nat) :
  chain lastPos tokens -> Forall (tokenOK text) tokens -> lastPos <= length text ->
  flat_map raw (pieces text lastPos tokens) = skipn lastPos text.
Proof.
  revert lastPos. induction tokens as [|t tokens IH]; intros lastPos Hc Hok Hl.
  - simpl. destruct (Nat.ltb_spec lastPos (length text)); simpl.
    + apply app_nil_r.
    + symmetry. apply skipn_all2. assumption.
  - destruct Hc as (Hlo & Hc). inversion Hok as [|? ? [Hne Hb Hv] Hok']; subst.
    cbn [pieces]. rewrite flat_map_app. cbn [flat_map raw].
    rewrite IH by (assumption || lia).
    change (skipn lastPos text) with (substringFrom text lastPos).
    change (skipn (end_ t) text) with (substringFrom text (end_ t)).
    rewrite !substring_to_end by lia.
    rewrite (substring_split text lastPos (start t) (length text)) by lia.
    rewrite (substring_split text (start t) (end_ t) (length text)) by lia.
    rewrite Hv. f_equal.
    destruct (Nat.ltb_spec lastPos (start t)); simpl.
    + apply app_nil_r.
    + replace (start t) with lastPos by lia. symmetry. apply substring_empty. lia.
Qed.

Lemma chain_lower (lo : nat) (tokens : list Token) (t : Token) :
  chain lo tokens -> Forall (fun t => start t < end_ t) tokens -> In t tokens ->
  lo <= start t.
Proof.
  revert lo. induction tokens as [|a tokens IH]; intros lo Hc Hne Hin; [destruct Hin|].
  destruct Hc as (Hlo & Hc). inversion Hne; subst.
  destruct Hin as [->|Hin]; [assumption|].
  specialize (IH (end_ a) Hc ltac:(assumption) Hin). lia.
Qed.

Lemma tokenOK_nonempty (text : jsstring) (tokens : list Token) :
  Forall (tokenOK text) tokens -> Forall (fun t => start t < end_ t) tokens.
Proof. apply Forall_impl. intros t []. assumption. Qed.

Lemma substring_Forall (text : jsstring) (a b : nat) (P : unit16 -> Prop) :
  a <= b -> b <= length text ->
  (forall k c, a <= k < b -> charAt text k = Some c -> P c) ->
  Forall P (substring text a b).
Proof.
  intros Hab Hb H. apply Forall_forall. intros c Hc.
  apply In_nth_error in Hc as (k & Hk).
  assert (Hlt : k < b - a).
  { rewrite <- (substring_length text a b) by assumption.
    apply nth_error_Some. congruence. }
  rewrite charAt_substring in Hk by assumption.
  apply (H (a + k)); [lia | assumption].
Qed.

(** Where every position outside the tokens holds whitespace, the fillers
    are whitespace. *)
Lemma fillers_whitespace (text : jsstring) (tokens : list Token) (lastPos : nat) :
  chain lastPos tokens -> Forall (tokenOK text) tokens -> lastPos <= length text ->
  (forall p, lastPos <= p < length text ->
             covered tokens p \/ isWhitespace (charAt text p) = true) ->
  Forall (Forall (fun c => isWhitespace (Some c) = true))
         (fillers (pieces text lastPos tokens)).
Proof.
  revert lastPos. induction tokens as [|t tokens IH]; intros lastPos Hc Hok Hl Hcov.
  - simpl. destruct (Nat.ltb_spec lastPos (length text)); simpl; constructor; [|constructor].
    unfold substringFrom. rewrite <- (firstn_all (skipn lastPos text)).
    rewrite length_skipn. rewrite <- substring_ordered by lia.
    apply substring_Forall; try lia.
    intros k c Hk Hck. cbv beta.
    destruct (Hcov k ltac:(lia)) as [(a & [] & _)|Hw].
    rewrite Hck in Hw. exact Hw.
  - pose proof (tokenOK_nonempty text _ Hok) as Hne.
    destruct Hc as (Hlo & Hc). inversion Hok as [|? ? [Hne1 Hb Hv] Hok']; subst.
    cbn [pieces]. unfold fillers. rewrite flat_map_app. cbn [flat_map].
    apply Forall_app. split.
    + destruct (Nat.ltb_spec lastPos (start t)); simpl; constructor; [|constructor].
      apply substring_Forall; try lia.
      intros k c Hk Hck. cbv beta.
      destruct (Hcov k ltac:(lia)) as [(a & Hin & Ha)|Hw].
      * exfalso. destruct Hin as [<-|Hin]; [lia|].
        inversion Hne; subst.
        pose proof (chain_lower _ _ _ Hc ltac:(assumption) Hin). lia.
      * rewrite Hck in Hw. exact Hw.
    + apply IH; try assumption.
      intros p Hp. destruct (Hcov p ltac:(lia)) as [(a & Hin & Ha)|Hw]; [|auto].
      left. destruct Hin as [<-|Hin]; [lia|]. exists a. auto.
Qed.

(** ** Helpers for the statements about single rules *)

Lemma isChar_true (o : option unit16) (c : unit16) : isChar o c = true <-> o = Some c.
Proof.
  destruct o as [x|]; simpl; [|split; discriminate].
  rewrite N.eqb_eq. split; congruence.
Qed.

Lemma isChar_false (o : option unit16) (c : unit16) : isChar o c = false <-> o <> Some c.
Proof.
  rewrite <- isChar_true. destruct (isChar o c); split; congruence.
Qed.

Lemma find_all_false {A : Type} (f : A -> bool) (l : list A) :
  (forall x, In x l -> f x = false) -> find f l = None.
Proof.
  induction l as [|a l IH]; intros H; [reflexivity|].
  simpl. rewrite (H a) by (left; reflexivity). apply IH.
  intros x Hx. apply H. right. assumption.
Qed.

Lemma chain_adjacent (lo : nat) (tokens : list Token) (k : nat) (a b : Token) :
  chain lo tokens ->
  nth_error tokens k = Some a -> nth_error tokens (S k) = Some b ->
  end_ a <= start b.
Proof.
  revert lo k. induction tokens as [|t tokens IH]; intros lo k Hc Ha Hb.
  - destruct k; discriminate.
  - destruct Hc as (_ & Hc). destruct k as [|k].
    + simpl in Ha. injection Ha as ->. destruct tokens as [|b' tokens]; [discriminate|].
      simpl in Hb. injection Hb as ->. destruct Hc as (Hc & _). exact Hc.
    + simpl in Ha, Hb. eapply IH; eassumption.
Qed.

(** The turn of the loop at a plain character where no operator word
    stands and an equals sign follows: the key token ends where the
    whitespace before the equals sign begins. *)
Lemma iteration_key (fuel : nat) (text : jsstring) (i e : nat) (tokens : list Token) :
  length text < fuel -> i < e < length text ->
  plainChar text i = true ->
  (forall op, In op logicalOperators -> wholeWord text i op = false) ->
  charAt text e = Some EQUALS ->
  (forall p, i <= p < e -> charAt text p <> Some EQUALS) ->
  exists k, i < k <= e
            /\ (forall p, k <= p < e -> isWhitespace (charAt text p) = true)
            /\ isWhitespace (charAt text (k - 1)) = false
            /\ iteration fuel text (i, tokens) =
               Some (k, push tokens (mkToken key (substring text i k) i k)).
Proof.
  intros Hf He Hp Hop Heq Hfirst.
  rewrite iteration_plain by assumption.
  rewrite operatorRule_spec by apply operators_letters.
  rewrite find_all_false by assumption.
  destruct (keyRule_spec fuel text Hf i ltac:(lia))
    as (e0 & He0 & Hbefore & Hat & [(Hn & _)|(Hlt & k & Hk & Hws & Hstop & ->)]).
  - exfalso. specialize (Hbefore e ltac:(lia)).
    apply isChar_false in Hbefore. contradiction.
  - assert (e0 = e).
    { destruct (Nat.lt_trichotomy e0 e) as [H|[H|H]]; [|assumption|].
      - exfalso. apply (Hfirst e0 ltac:(lia)). apply isChar_true. auto.
      - exfalso. specialize (Hbefore e ltac:(lia)).
        apply isChar_false in Hbefore. contradiction. }
    subst e0.
    assert (i < k).
    { destruct (Nat.eq_dec k i) as [->|]; [|lia].
      exfalso. specialize (Hws i ltac:(lia)).
      apply plainChar_split in Hp as (Hp & _). congruence. }
    exists k. repeat split; try lia; try assumption; auto.
    destruct (Nat.ltb_spec i k); [reflexivity | lia].
Qed.

(** A word of the operator list that stands at [i] is found by the
    operator rule: the words start with different letters. *)
Lemma wholeWord_found (text : jsstring) (i : nat) (op : jsstring) :
  In op logicalOperators -> wholeWord text i op = true ->
  find (wholeWord text i) logicalOperators = Some op /\ plainChar text i = true.
Proof.
  intros Hin Hww. pose proof Hww as Hhead. unfold wholeWord, substr in Hhead.
  apply andb_true_iff in Hhead as (Hhead & _).
  apply andb_true_iff in Hhead as (Hhead & _).
  assert (Hc : charAt text i = hd_error (skipn i text))
    by (symmetry; apply hd_error_skipn).
  assert (Hother : forall op', wholeWord text i op' =
            eqIgnoreCase (firstn (length op') (skipn i text)) op'
            && ((i =? 0) || isWhitespace (charAt text (i - 1)))
            && ((length text <=? i + length op')
                || isWhitespace (charAt text (i + length op')))) by reflexivity.
  unfold plainChar. rewrite Hc.
  simpl in Hin. destruct Hin as [<-|[<-|[<-|[]]]];
    (destruct (skipn i text) as [|c l]; [discriminate|]);
    simpl in Hhead; apply andb_true_iff in Hhead as (Hhead & _);
    apply orb_true_iff in Hhead as [Hhead|Hhead]; apply N.eqb_eq in Hhead; subst c;
    simpl find; rewrite ?Hww; rewrite ?Hother; simpl; auto.
Qed.

(** With the tags stripped, the markup of the scanned input is the escaped
    input. *)
Lemma render_stripped (text : jsstring) :
  exists tokens,
    tokenize text = Some tokens
    /\ strip_tags (render text tokens) = escapeHtml text.
Proof.
  destruct (tokenize_total text) as (tokens & Ht & _ & Hok & _ & Hchain & _).
  simpl in Hok, Hchain. exists tokens. split; [assumption|].
  rewrite render_pieces, strip_emit.
  rewrite (pieces_raw text tokens 0) by (assumption || lia). reflexivity.
Qed.

(** The wrapped pieces are the tokens, in their order. *)
Lemma pieces_tokens (text : jsstring) (tokens : list Token) (lastPos : nat) :
  flat_map (fun p => match p with Filler _ => [] | Wrapped t => [t] end)
           (pieces text lastPos tokens) = tokens.
Proof.
  revert lastPos. induction tokens as [|t tokens IH]; intros lastPos.
  - simpl. destruct (lastPos <? length text); reflexivity.
  - cbn [pieces]. rewrite flat_map_app. cbn [flat_map app]. rewrite IH.
    destruct (lastPos <? start t); reflexivity.
Qed.

(** What a turn of the loop appends does not depend on the tokens
    collected so far. *)
Lemma iteration_any_tokens (fuel : nat) (text : jsstring) (i j : nat)
    (tokens tokens' : list Token) (t : Token) :
  iteration fuel text (i, tokens) = Some (j, push tokens t) ->
  iteration fuel text (i, tokens') = Some (j, push tokens' t).
Proof.
  assert (Hlen : forall l : list Token, l <> push l t).
  { intros l H. apply (f_equal (@length Token)) in H. unfold push in H.
    rewrite length_app in H. simpl in H. lia. }
  assert (Hpush : forall (x : nat) (y : Token),
             Some (x, push tokens y) = Some (j, push tokens t) ->
             Some (x, push tokens' y) = Some (j, push tokens' t)).
  { intros x y H. injection H as -> H. apply app_inj_tail in H as (_ & ->). reflexivity. }
  unfold iteration.
  destruct (isWhitespace _).
  { intros H. injection H as _ H. destruct (Hlen _ H). }
  destruct (_ || _); [apply Hpush|].
  destruct (isChar _ EQUALS); [apply Hpush|].
  destruct (isQuoteChar _).
  { destruct (quoteRule fuel text i) as [r|]; [apply Hpush | discriminate]. }
  destruct (operatorRule text logicalOperators i) as [r|]; [apply Hpush|].
  destruct (keyRule fuel text i) as [[r|]|]; [apply Hpush | | discriminate].
  unfold textRule. destruct (textRun fuel text i) as [k|]; [|discriminate].
  destruct (i <? k); [apply Hpush|].
  intros H. injection H as _ H. destruct (Hlen _ H).
Qed.

(** Each token of the scan is what a turn of the main loop appends at the
    position where the token starts, whatever was collected before. *)
Lemma tokenize_turns (text : jsstring) :
  exists tokens,
    tokenize text = Some tokens
    /\ forall t, In t tokens ->
         forall fuel toks, length text < fuel ->
           iteration fuel text (start t, toks) = Some (end_ t, push toks t).
Proof.
  destruct (tokenize_total text) as (tokens & Ht & _).
  exists tokens. split; [assumption|].
  set (F := S (length text)).
  assert (Hall : Forall (fun t => forall toks,
                   iteration F text (start t, toks) = Some (end_ t, push toks t)) tokens).
  { unfold tokenize, tokenizeFuel, scan in Ht. fold F in Ht.
    destruct (while_total
                (fun st => fst st <= length text
                           /\ Forall (fun t => forall toks,
                                iteration F text (start t, toks)
                                = Some (end_ t, push toks t)) (snd st))
                (fun st => length text - fst st)
                (fun st => fst st <? length text) (iteration F text))
      with (fuel := F) (s := (0, @nil Token))
      as (st & Hw & (_ & Hall) & _).
    - intros (i, toks) (Hle & Hall) Hc. cbn [fst snd] in Hle, Hall, Hc |- *.
      apply Nat.ltb_lt in Hc.
      destruct (iteration_step F text ltac:(unfold F; lia) i toks Hc)
        as [(_ & E)|(_ & t & E & Hs & [Hne Hb _] & _)].
      + exists (i + 1, toks). cbn [fst snd]. repeat split; try assumption; lia.
      + exists (end_ t, push toks t). cbn [fst snd].
        repeat split; try assumption; try lia.
        unfold push. apply Forall_app. split; [assumption|].
        constructor; [|constructor]. intros toks'. rewrite Hs.
        apply (iteration_any_tokens F text i (end_ t) toks toks' t E).
    - cbn [fst snd]. split; [lia | constructor].
    - cbn [fst]. unfold F. lia.
    - rewrite Hw in Ht. injection Ht as <-. assumption. }
  intros t Hin fuel toks Hf. rewrite Forall_forall in Hall.
  apply (iteration_more_fuel F fuel); [unfold F; lia | apply Hall; assumption].
Qed.

(** * The claims *)

(** C1: the round trip.  For every input the scan and the renderer succeed.
    The markup is the concatenation, in input order, of the pieces of the
    renderer: the escaped filler before each token, each token as its escaped
    content between the opening tag of a span whose class is token- followed
    by the name of the type of the token and the closing tag of the span, and
    the escaped trailing filler; the wrapped pieces are exactly the tokens of
    the scan, in their order, and each of the seven types has its own class
    name.  The unescaped pieces concatenate to the input, and stripping the
    tags from the markup and undoing the entity escaping gives back exactly
    the input. *)
Theorem render_round_trip (text : jsstring) :
  exists tokens html,
    tokenize text = Some tokens
    /\ parseAndHighlight text = Some html
    /\ html =
       flat_map
         (fun p =>
            match p with
            | Filler s => escapeHtml s
            | Wrapped t =>
                str "<span class=" ++ [QUOT] ++ str "token-" ++ typeName (type t)
                  ++ [QUOT] ++ str ">" ++ escapeHtml (tvalue t) ++ str "</span>"
            end)
         (pieces text 0 tokens)
    /\ flat_map (fun p => match p with Filler _ => [] | Wrapped t => [t] end)
                (pieces text 0 tokens) = tokens
    /\ (typeName logical_operator = str "logical-operator"
        /\ typeName key = str "key"
        /\ typeName value = str "value"
        /\ typeName quote = str "quote"
        /\ typeName parenthesis = str "parenthesis"
        /\ typeName equals = str "equals"
        /\ typeName text_ = str "text")
    /\ flat_map raw (pieces text 0 tokens) = text
    /\ unescapeHtml (strip_tags html) = text.
Proof.
  destruct (tokenize_total text) as (tokens & Ht & _ & Hok & _ & Hchain & _).
  simpl in Hok, Hchain.
  assert (Hraw : flat_map raw (pieces text 0 tokens) = text)
    by (apply (pieces_raw text tokens 0); [assumption | assumption | lia]).
  exists tokens, (render text tokens).
  split; [assumption|]. split; [|split; [|split; [|split; [|split]]]].
  - unfold parseAndHighlight. rewrite Ht. reflexivity.
  - rewrite render_pieces. apply flat_map_ext. intros [s|t]; reflexivity.
  - apply pieces_tokens.
  - repeat split.
  - assumption.
  - rewrite render_pieces, strip_emit, Hraw. apply unescape_escape.
Qed.

(** C2: the token sequence is well formed.  For every input the scan
    yields tokens such that each token starts strictly after the start of the
    one before it and not before its end, every span is non-empty and lies
    inside the input, and the content of every token is the substring of its
    span. *)
Theorem tokenize_well_formed (text : jsstring) :
  exists tokens,
    tokenize text = Some tokens
    /\ (forall k a b,
          nth_error tokens k = Some a -> nth_error tokens (S k) = Some b ->
          start a < start b /\ end_ a <= start b)
    /\ (forall t, In t tokens ->
          0 <= start t /\ start t < end_ t /\ end_ t <= length text
          /\ tvalue t = substring text (start t) (end_ t)).
Proof.
  destruct (tokenize_total text) as (tokens & Ht & _ & Hok & _ & Hchain & _).
  simpl in Hok, Hchain. exists tokens. split; [assumption|]. split.
  - intros k a b Ha Hb.
    pose proof (chain_adjacent 0 tokens k a b Hchain Ha Hb) as Hab.
    apply nth_error_In in Ha. rewrite Forall_forall in Hok.
    destruct (Hok a Ha) as [Hne _ _]. lia.
  - intros t Hin. rewrite Forall_forall in Hok. destruct (Hok t Hin) as [Hne Hb Hv].
    repeat split; try assumption. lia.
Qed.

(** C3: the scan is total.  On every input, from any cursor inside the
    input, one turn of the main loop succeeds and moves the cursor strictly
    forward without leaving the input; the plain-text run that starts at a
    character left over by the whitespace, parenthesis, equals and quote rules
    is never empty; and the whole scan returns a token sequence, which is well
    formed and is the same for every amount of fuel above the length of the
    input. *)
Theorem tokenize_terminates (text : jsstring) :
  (forall fuel i tokens,
      length text < fuel -> i < length text ->
      exists i' tokens',
        iteration fuel text (i, tokens) = Some (i', tokens')
        /\ i < i' <= length text)
  /\ (forall fuel i,
        length text < fuel -> i < length text -> plainChar text i = true ->
        exists j, textRun fuel text i = Some j /\ i < j <= length text)
  /\ exists tokens,
       tokenize text = Some tokens
       /\ Forall (tokenOK text) tokens
       /\ chain 0 tokens
       /\ forall fuel, length text < fuel -> tokenizeFuel fuel text = Some tokens.
Proof.
  split; [|split].
  - intros fuel i tokens Hf Hi.
    destruct (iteration_step fuel text Hf i tokens Hi)
      as [(_ & ->)|(_ & t & -> & Hs & [Hne Hb _] & _)].
    + exists (i + 1), tokens. split; [reflexivity | lia].
    + exists (end_ t), (push tokens t). split; [reflexivity | lia].
  - intros fuel i Hf Hi Hp. apply textRun_advances; assumption.
  - destruct (tokenize_total text) as (tokens & Ht & _ & Hok & _ & Hchain & _).
    exists tokens. repeat split; try assumption.
    intros fuel Hf. apply (tokenizeFuel_more_fuel (S (length text))); [lia | exact Ht].
Qed.


(** C5: the quote rule.  With the cursor on one of the three quote
    characters, the turn of the loop appends one quote token: when [j] is the
    first later position that holds the same quote character with no
    backslash just before it, the token spans from the opening quote through
    [j] and the cursor moves behind [j]; when there is no such position, the
    token spans from the opening quote to the end of the input and the cursor
    moves there.  On the example input the quoted token takes in both escaped
    inner quotes and ends at the last double quote. *)
Theorem quote_rule (fuel : nat) (text : jsstring) (i : nat) (q : unit16)
    (tokens : list Token) :
  length text < fuel ->
  charAt text i = Some q ->
  q = QUOT \/ q = APOS \/ q = RDQUO ->
  (forall j,
      i < j < length text -> closesAt text q j = true ->
      (forall k, i < k < j -> closesAt text q k = false) ->
      iteration fuel text (i, tokens) =
      Some (j + 1, push tokens (mkToken quote (substring text i (j + 1)) i (j + 1))))
  /\ ((forall k, i < k < length text -> closesAt text q k = false) ->
      iteration fuel text (i, tokens) =
      Some (length text,
            push tokens (mkToken quote (substringFrom text i) i (length text))))
  /\ tokenize quotedInput =
     Some [mkToken key (str "key") 0 3;
           mkToken equals (str "=") 3 4;
           mkToken quote
             ([QUOT] ++ str "a \" ++ [QUOT] ++ str "b\" ++ [QUOT] ++ str " c" ++ [QUOT])
             4 15].
Proof.
  intros Hf Hq Hkind.
  assert (Hquote : isQuoteChar (charAt text i) = true).
  { rewrite Hq. destruct Hkind as [->|[->| ->]]; reflexivity. }
  rewrite iteration_quote by assumption.
  destruct (quoteRule_spec fuel text Hf q i Hq) as (j0 & Hr & Hbefore & Hat & ->).
  split; [|split].
  - intros j Hj Hclose Hfirst.
    assert (j0 = j).
    { destruct (Nat.lt_trichotomy j0 j) as [H|[H|H]]; [|assumption|].
      - rewrite Hfirst in Hat by lia. specialize (Hat ltac:(lia)). discriminate.
      - rewrite Hbefore in Hclose by lia. discriminate. }
    subst j0. destruct (Nat.ltb_spec j (length text)); [reflexivity | lia].
  - intros Hnone. destruct (Nat.ltb_spec j0 (length text)) as [Hj|Hj]; [|reflexivity].
    rewrite Hnone in Hat by lia. specialize (Hat Hj). discriminate.
  - vm_compute. reflexivity.
Qed.

Lemma quote_rule_witness :
  iteration 16 quotedInput (4, []) =
  Some (15, [mkToken quote (substring quotedInput 4 15) 4 15]).
Proof.
  apply (proj1 (quote_rule 16 quotedInput 4 QUOT []
                  ltac:(vm_compute; lia) eq_refl (or_introl eq_refl)) 14).
  - vm_compute. lia.
  - reflexivity.
  - intros k Hk.
    assert (Hcases : k = 5 \/ k = 6 \/ k = 7 \/ k = 8 \/ k = 9 \/ k = 10
                     \/ k = 11 \/ k = 12 \/ k = 13) by lia.
    repeat (destruct Hcases as [->|Hcases]; [reflexivity|]). subst k. reflexivity.
Defined.

(** C6: the operator words.  The operator rule takes the first of AND, OR,
    NOT, in this order, that stands at the cursor as a whole word, letter
    case ignored.  Every logical-operator token of the scan is such a word,
    with nothing or whitespace before it and the end of the input or
    whitespace after it, and its content is the text of its span, in the
    casing and length of the input; and wherever one of the words stands as a
    whole word at the cursor, the turn of the loop appends it as a
    logical-operator token.  The input AND alone gives one logical-operator
    token, the input ANDROID one text token. *)
Theorem operator_whole_word (text : jsstring) :
  (forall i,
      operatorRule text [str "AND"; str "OR"; str "NOT"] i =
      match find (wholeWord text i) [str "AND"; str "OR"; str "NOT"] with
      | Some op =>
          Some (mkToken logical_operator (substring text i (i + length op))
                        i (i + length op), i + length op)
      | None => None
      end)
  /\ (exists tokens,
        tokenize text = Some tokens
        /\ forall t, In t tokens -> type t = logical_operator ->
             exists op,
               In op logicalOperators
               /\ eqIgnoreCase (tvalue t) op = true
               /\ (start t = 0 \/ isWhitespace (charAt text (start t - 1)) = true)
               /\ (end_ t = length text \/ isWhitespace (charAt text (end_ t)) = true)
               /\ tvalue t = substring text (start t) (end_ t)
               /\ end_ t = start t + length op)
  /\ (forall fuel i tokens op,
        length text < fuel -> i < length text ->
        In op logicalOperators -> wholeWord text i op = true ->
        iteration fuel text (i, tokens) =
        Some (i + length op,
              push tokens (mkToken logical_operator (substring text i (i + length op))
                                   i (i + length op))))
  /\ tokenize (str "AND") = Some [mkToken logical_operator (str "AND") 0 3]
  /\ tokenize (str "ANDROID") = Some [mkToken text_ (str "ANDROID") 0 7].
Proof.
  split; [|split; [|split; [|split]]].
  - intros i. apply (operatorRule_spec text logicalOperators i operators_letters).
  - destruct (tokenize_total text) as (tokens & Ht & _ & Hok & Hkind & _).
    simpl in Hok, Hkind. exists tokens. split; [assumption|].
    intros t Hin Hty. rewrite Forall_forall in Hok, Hkind.
    destruct (Hok t Hin) as [Hne Hb Hv]. specialize (Hkind t Hin).
    unfold kindOK in Hkind. rewrite Hty in Hkind.
    destruct Hkind as (op & Hop & Hww & Hend).
    exists op. split; [assumption|].
    unfold wholeWord in Hww.
    apply andb_true_iff in Hww as (Hww & Hafter).
    apply andb_true_iff in Hww as (Heq & Hbefore).
    repeat split; try assumption.
    + rewrite Hv, Hend, substring_ordered by lia.
      replace (start t + length op - start t) with (length op) by lia. exact Heq.
    + apply orb_true_iff in Hbefore as [H|H]; [left; apply Nat.eqb_eq | right]; assumption.
    + apply orb_true_iff in Hafter as [H|H].
      * left. apply Nat.leb_le in H. lia.
      * right. rewrite Hend. assumption.
  - intros fuel i tokens op Hf Hi Hop Hww.
    destruct (wholeWord_found text i op Hop Hww) as (Hfind & Hp).
    rewrite iteration_plain by assumption.
    rewrite operatorRule_spec by apply operators_letters.
    rewrite Hfind. reflexivity.
  - vm_compute. reflexivity.
  - vm_compute. reflexivity.
Qed.

Lemma operator_whole_word_witness :
  iteration 12 (str "a or b") (2, []) =
  Some (4, [mkToken logical_operator (str "or") 2 4]).
Proof.
  apply (proj1 (proj2 (proj2 (operator_whole_word (str "a or b"))))
           12 2 [] (str "OR")).
  - vm_compute. lia.
  - vm_compute. lia.
  - right. left. reflexivity.
  - reflexivity.
Defined.

(** C7, as stated, fails: in the input OR = 1 the cursor starts on a
    character that is neither whitespace nor special, an equals sign occurs
    later, and yet the turn of the loop appends a logical-operator token for
    the first two characters, not a key token: the operator rule comes
    first. *)
Lemma key_rule_counterexample :
  plainChar (str "OR = 1") 0 = true
  /\ charAt (str "OR = 1") 3 = Some EQUALS
  /\ iteration 7 (str "OR = 1") (0, []) =
     Some (2, [mkToken logical_operator (str "OR") 0 2])
  /\ tokenize (str "OR = 1") =
     Some [mkToken logical_operator (str "OR") 0 2;
           mkToken equals (str "=") 3 4;
           mkToken text_ (str "1") 5 6].
Proof. repeat split; vm_compute; reflexivity. Qed.

(** C7, amended: the key rule.  With the cursor on a character that is
    neither whitespace nor special, where none of the operator words stands
    as a whole word, and with the next equals sign at a later position [e],
    the turn of the loop appends a key token from the cursor to [k], where
    [k] is [e] moved back over the whitespace just before it (the span is
    never empty), and moves the cursor to [k].  The input status = active
    gives the key status, the equals sign and the text active. *)
Theorem key_rule (fuel : nat) (text : jsstring) (i e : nat) (tokens : list Token) :
  length text < fuel -> i < e < length text ->
  plainChar text i = true ->
  (forall op, In op logicalOperators -> wholeWord text i op = false) ->
  charAt text e = Some EQUALS ->
  (forall p, i <= p < e -> charAt text p <> Some EQUALS) ->
  (exists k, i < k <= e
             /\ (forall p, k <= p < e -> isWhitespace (charAt text p) = true)
             /\ isWhitespace (charAt text (k - 1)) = false
             /\ iteration fuel text (i, tokens) =
                Some (k, push tokens (mkToken key (substring text i k) i k)))
  /\ tokenize (str "status = active") =
     Some [mkToken key (str "status") 0 6;
           mkToken equals (str "=") 7 8;
           mkToken text_ (str "active") 9 15].
Proof.
  intros Hf He Hp Hop Heq Hfirst. split.
  - apply iteration_key with (e := e); assumption.
  - vm_compute. reflexivity.
Qed.

Lemma key_rule_witness :
  (exists k, 0 < k <= 7
             /\ (forall p, k <= p < 7 ->
                   isWhitespace (charAt (str "status = active") p) = true)
             /\ isWhitespace (charAt (str "status = active") (k - 1)) = false
             /\ iteration 16 (str "status = active") (0, []) =
                Some (k, push [] (mkToken key (substring (str "status = active") 0 k) 0 k)))
  /\ tokenize (str "status = active") =
     Some [mkToken key (str "status") 0 6;
           mkToken equals (str "=") 7 8;
           mkToken text_ (str "active") 9 15].
Proof.
  apply (key_rule 16 (str "status = active") 0 7 []).
  - vm_compute. lia.
  - vm_compute. lia.
  - reflexivity.
  - intros op [<-|[<-|[<-|[]]]]; reflexivity.
  - reflexivity.
  - intros p Hp.
    assert (Hcases : p = 0 \/ p = 1 \/ p = 2 \/ p = 3 \/ p = 4 \/ p = 5 \/ p = 6) by lia.
    repeat (destruct Hcases as [->|Hcases]; [discriminate|]). subst p. discriminate.
Defined.

(** C8: the key rule takes in structural characters.  Under the conditions
    of the key rule, every character between the cursor and the next equals
    sign that is not whitespace lies in the span of the key token, whatever it
    is: nothing between the cursor and the equals sign is looked at.  In the
    input (status = x) = y the second key token is the letter x with the
    closing parenthesis, and the only parenthesis token is the opening
    one. *)
Theorem key_swallows (fuel : nat) (text : jsstring) (i e : nat) (tokens : list Token) :
  length text < fuel -> i < e < length text ->
  plainChar text i = true ->
  (forall op, In op logicalOperators -> wholeWord text i op = false) ->
  charAt text e = Some EQUALS ->
  (forall p, i <= p < e -> charAt text p <> Some EQUALS) ->
  (exists t, iteration fuel text (i, tokens) = Some (end_ t, push tokens t)
             /\ type t = key /\ start t = i /\ end_ t <= e
             /\ tvalue t = substring text i (end_ t)
             /\ forall p, i <= p < e -> isWhitespace (charAt text p) = false ->
                          p < end_ t)
  /\ tokenize (str "(status = x) = y") =
     Some [mkToken parenthesis (str "(") 0 1;
           mkToken key (str "status") 1 7;
           mkToken equals (str "=") 8 9;
           mkToken key (str "x)") 10 12;
           mkToken equals (str "=") 13 14;
           mkToken text_ (str "y") 15 16].
Proof.
  intros Hf He Hp Hop Heq Hfirst. split.
  - destruct (iteration_key fuel text i e tokens Hf He Hp Hop Heq Hfirst)
      as (k & Hk & Hws & _ & Hit).
    exists (mkToken key (substring text i k) i k). simpl.
    repeat split; try assumption; try lia.
    intros p Hpe Hnws. destruct (Nat.lt_ge_cases p k) as [|Hge]; [assumption|].
    rewrite Hws in Hnws by lia. discriminate.
  - vm_compute. reflexivity.
Qed.

Lemma key_swallows_witness :
  exists t, iteration 17 (str "(status = x) = y") (10, []) = Some (end_ t, push [] t)
            /\ type t = key /\ start t = 10 /\ end_ t <= 13
            /\ tvalue t = substring (str "(status = x) = y") 10 (end_ t)
            /\ forall p, 10 <= p < 13 ->
                 isWhitespace (charAt (str "(status = x) = y") p) = false ->
                 p < end_ t.
Proof.
  apply (key_swallows 17 (str "(status = x) = y") 10 13 []).
  - vm_compute. lia.
  - vm_compute. lia.
  - reflexivity.
  - intros op [<-|[<-|[<-|[]]]]; reflexivity.
  - reflexivity.
  - intros p Hp. assert (Hcases : p = 10 \/ p = 11 \/ p = 12) by lia.
    destruct Hcases as [->|[->| ->]]; discriminate.
Defined.

(** C9, as stated, fails in its second half: what follows an equals token
    is not always a key, text or quote token.  After the equals sign the word
    NOT gives a logical-operator token, an opening parenthesis a parenthesis
    token, and a second equals sign an equals token. *)
Lemma value_claim_counterexample :
  tokenize (str "a = NOT") =
    Some [mkToken key (str "a") 0 1;
          mkToken equals (str "=") 2 3;
          mkToken logical_operator (str "NOT") 4 7]
  /\ tokenize (str "a = (b)") =
     Some [mkToken key (str "a") 0 1;
           mkToken equals (str "=") 2 3;
           mkToken parenthesis (str "(") 4 5;
           mkToken text_ (str "b") 5 6;
           mkToken parenthesis (str ")") 6 7]
  /\ tokenize (str "a == b") =
     Some [mkToken key (str "a") 0 1;
           mkToken equals (str "=") 2 3;
           mkToken equals (str "=") 3 4;
           mkToken text_ (str "b") 5 6].
Proof. repeat split; vm_compute; reflexivity. Qed.

(** C9, amended: no token of the scan has the type value.  What follows an
    equals token is classified as anywhere else: every token of the scan,
    whatever stands before it, is the token that a turn of the main loop
    appends at the position where it starts, and the token after an equals
    token is a parenthesis, equals, quote, logical-operator, key or text
    token. *)
Theorem tokenize_no_value (text : jsstring) :
  exists tokens,
    tokenize text = Some tokens
    /\ Forall (fun t => type t <> value) tokens
    /\ (forall t, In t tokens ->
          forall fuel toks, length text < fuel ->
            iteration fuel text (start t, toks) = Some (end_ t, push toks t))
    /\ (forall before a b after,
          tokens = before ++ a :: b :: after -> type a = equals ->
          type b = parenthesis \/ type b = equals \/ type b = quote
          \/ type b = logical_operator \/ type b = key \/ type b = text_).
Proof.
  destruct (tokenize_total text) as (tokens & Ht & _ & _ & Hkind & _).
  destruct (tokenize_turns text) as (tokens' & Ht' & Hturns).
  rewrite Ht in Ht'. injection Ht' as <-.
  simpl in Hkind. exists tokens. split; [assumption|].
  assert (Hno : Forall (fun t => type t <> value) tokens).
  { eapply Forall_impl; [|exact Hkind].
    intros t Hk Hty. unfold kindOK in Hk. rewrite Hty in Hk. exact Hk. }
  split; [assumption|]. split; [assumption|].
  intros l1 a b l2 -> _. rewrite Forall_forall in Hno.
  assert (Hb : type b <> value).
  { apply Hno. apply in_or_app. right. right. left. reflexivity. }
  destruct (type b); try tauto.
Qed.

(** C10: the fillers are whitespace.  For every input, every position that
    lies in the span of no token holds a whitespace character, and every
    filler that the renderer copies between, before and after the tokens
    consists of whitespace only. *)
Theorem fillers_are_whitespace (text : jsstring) :
  exists tokens,
    tokenize text = Some tokens
    /\ (forall p, p < length text ->
          covered tokens p \/ isWhitespace (charAt text p) = true)
    /\ render text tokens = flat_map emit (pieces text 0 tokens)
    /\ Forall (Forall (fun c => isWhitespace (Some c) = true))
              (fillers (pieces text 0 tokens)).
Proof.
  destruct (tokenize_total text) as (tokens & Ht & _ & Hok & _ & Hchain & _ & Hcov).
  simpl in Hok, Hchain, Hcov. exists tokens. repeat split.
  - assumption.
  - assumption.
  - apply render_pieces.
  - apply fillers_whitespace; try assumption; try lia.
    intros p Hp. apply Hcov. lia.
Qed.


(** * Further properties of the scan, the renderer and the escaping *)

(** ** Every token by the rule that produced it *)

Lemma isQuoteChar_cases (c : unit16) :
  isQuoteChar (Some c) = true -> c = QUOT \/ c = APOS \/ c = RDQUO.
Proof.
  unfold isQuoteChar. simpl. rewrite !orb_true_iff, !N.eqb_eq. tauto.
Qed.

(** A turn of the main loop steps over a whitespace character or appends
    the token of exactly one rule. *)
Lemma iteration_emits (fuel : nat) (text : jsstring) (i : nat) (tokens : list Token) :
  length text < fuel -> i < length text ->
  (isWhitespace (charAt text i) = true
   /\ iteration fuel text (i, tokens) = Some (i + 1, tokens))
  \/ (isWhitespace (charAt text i) = false
      /\ exists t, Emits text i t
                   /\ iteration fuel text (i, tokens) = Some (end_ t, push tokens t)).
Proof.
  intros Hf Hi. destruct (charAt_Some fuel text Hf i Hi) as (c & Hc).
  destruct (isWhitespace (charAt text i)) eqn:Hws.
  { left. split; [reflexivity|]. unfold iteration. rewrite Hws. reflexivity. }
  right. split; [reflexivity|].
  destruct (isChar (charAt text i) LPAREN || isChar (charAt text i) RPAREN) eqn:Hpar.
  { exists (mkToken parenthesis [c] i (i + 1)). split.
    - apply emits_parenthesis; [assumption|].
      rewrite Hc in Hpar. simpl in Hpar.
      apply orb_true_iff in Hpar as [H|H]; apply N.eqb_eq in H; auto.
    - unfold iteration. rewrite Hws, Hpar, Hc. reflexivity. }
  destruct (isChar (charAt text i) EQUALS) eqn:Heq.
  { exists (mkToken equals (str "=") i (i + 1)). split.
    - apply emits_equals. apply isChar_true. assumption.
    - unfold iteration. rewrite Hws, Hpar, Heq. reflexivity. }
  destruct (isQuoteChar (charAt text i)) eqn:Hquote.
  { rewrite iteration_quote by assumption.
    rewrite Hc in Hquote. apply isQuoteChar_cases in Hquote.
    destruct (quoteRule_spec fuel text Hf c i Hc) as (j & Hr & Hbefore & Hat & ->).
    destruct (Nat.ltb_spec j (length text)) as [Hj|Hj].
    - exists (mkToken quote (substring text i (j + 1)) i (j + 1)). split; [|reflexivity].
      apply emits_quote_closed with (q := c); auto. lia.
    - exists (mkToken quote (substringFrom text i) i (length text)). split; [|reflexivity].
      apply emits_quote_open with (q := c); auto.
      intros k Hk. apply Hbefore. lia. }
  assert (Hp : plainChar text i = true) by (apply plainChar_join; assumption).
  rewrite iteration_plain by assumption.
  rewrite operatorRule_spec by apply operators_letters.
  destruct (find (wholeWord text i) logicalOperators) as [op|] eqn:Hfind.
  { apply find_some in Hfind as (Hin & Hww).
    exists (mkToken logical_operator (substring text i (i + length op)) i (i + length op)).
    split; [|reflexivity]. apply emits_operator; assumption. }
  pose proof (find_none _ _ Hfind) as Hnone.
  destruct (keyRule_spec fuel text Hf i Hi)
    as (e & He & Hne & Hat & [(Hn & ->)|(Hlt & k & Hk & Hkws & Hstop & ->)]).
  - destruct (textRun_spec fuel text Hf i ltac:(lia)) as (j & Hw & Hj & Hrun & Hend).
    assert (i < j).
    { destruct (Nat.eq_dec j i) as [->|]; [|lia]. rewrite Hend in Hp by lia. discriminate. }
    unfold textRule. rewrite Hw. destruct (Nat.ltb_spec i j); [|lia].
    exists (mkToken text_ (substring text i j) i j). split; [|reflexivity].
    apply emits_text; try assumption; try lia.
    intros p Hpe. apply isChar_false. apply Hne. lia.
  - assert (i < k).
    { destruct (Nat.eq_dec k i) as [->|]; [|lia].
      assert (i <> e).
      { intros ->. rewrite (Hat Hlt) in Heq. discriminate. }
      rewrite Hkws in Hws by lia. discriminate. }
    destruct (Nat.ltb_spec i k); [|lia].
    exists (mkToken key (substring text i k) i k). split; [|reflexivity].
    apply emits_key with (e := e); try assumption; try lia; auto.
    + apply isChar_true. auto.
    + intros p Hpe. apply isChar_false. auto.
Qed.

Lemma Emits_start (text : jsstring) (i : nat) (t : Token) : Emits text i t -> start t = i.
Proof. destruct 1; reflexivity. Qed.

(** The scan succeeds with the invariant, and each of its tokens is the
    token of one rule at the position where it starts. *)
Lemma tokenize_emits (text : jsstring) :
  exists tokens,
    tokenize text = Some tokens
    /\ scanInv text (length text, tokens)
    /\ Forall (fun t => Emits text (start t) t) tokens.
Proof.
  destruct (tokenize_total text) as (tokens & Ht & Hinv).
  exists tokens. split; [assumption|]. split; [assumption|].
  unfold tokenize, tokenizeFuel, scan in Ht.
  destruct (while_total
              (fun st => fst st <= length text
                         /\ Forall (fun t => Emits text (start t) t) (snd st))
              (fun st => length text - fst st)
              (fun st => fst st <? length text) (iteration (S (length text)) text))
    with (fuel := S (length text)) (s := (0, @nil Token))
    as (st & Hw & (_ & Hall) & _).
  - intros (i, toks) (Hle & Hall) Hc. cbn [fst snd] in Hle, Hall, Hc |- *.
    apply Nat.ltb_lt in Hc.
    destruct (iteration_emits (S (length text)) text i toks ltac:(lia) Hc)
      as [(_ & E)|(_ & t & Hem & E)].
    + exists (i + 1, toks). cbn [fst snd]. repeat split; try assumption; lia.
    + pose proof (iteration_step (S (length text)) text ltac:(lia) i toks Hc)
        as [(_ & E')|(_ & t' & E' & _ & [Hne Hb _] & _)].
      * rewrite E in E'. injection E' as _ E'. exfalso.
        apply (f_equal (@length Token)) in E'. unfold push in E'.
        rewrite length_app in E'. simpl in E'. lia.
      * rewrite E in E'. injection E' as He E'. apply app_inj_tail in E' as (_ & <-).
        pose proof (Emits_start _ _ _ Hem) as Hs.
        exists (end_ t, push toks t). cbn [fst snd].
        repeat split; try assumption; try lia.
        unfold push. apply Forall_app. split; [assumption|]. constructor; [|constructor].
        rewrite Hs. assumption.
  - simpl. split; [lia | constructor].
  - simpl. lia.
  - rewrite Hw in Ht. injection Ht as <-. assumption.
Qed.

(** ** Escaping *)

Lemma escapeChar_length (c : unit16) :
  1 <= length (escapeChar c) <= 6
  /\ (length (escapeChar c) = 1 ->
      c <> AMP /\ c <> LT /\ c <> GT /\ c <> QUOT /\ c <> APOS).
Proof.
  unfold escapeChar.
  destruct (N.eqb_spec c AMP); [|destruct (N.eqb_spec c LT);
    [|destruct (N.eqb_spec c GT); [|destruct (N.eqb_spec c QUOT);
      [|destruct (N.eqb_spec c APOS)]]]]; simpl; (split; [lia|]);
    intros H; try discriminate H; auto.
Qed.

Lemma escapeChar_plain (c : unit16) :
  c <> AMP /\ c <> LT /\ c <> GT /\ c <> QUOT /\ c <> APOS -> escapeChar c = [c].
Proof.
  intros (H1 & H2 & H3 & H4 & H5). unfold escapeChar.
  apply N.eqb_neq in H1, H2, H3, H4, H5. rewrite H1, H2, H3, H4, H5. reflexivity.
Qed.

Lemma escapeHtml_length_ge (s : jsstring) : length s <= length (escapeHtml s).
Proof.
  rewrite escapeHtml_table. induction s as [|c s IH]; [simpl; lia|].
  simpl. rewrite length_app. pose proof (escapeChar_length c). lia.
Qed.

Lemma escapeHtml_same_length (s : jsstring) :
  length (escapeHtml s) = length s ->
  Forall (fun c => c <> AMP /\ c <> LT /\ c <> GT /\ c <> QUOT /\ c <> APOS) s.
Proof.
  induction s as [|c s IH]; intros H; [constructor|].
  change (c :: s) with ([c] ++ s) in H.
  rewrite escapeHtml_app, escapeHtml_one, length_app in H. simpl in H.
  pose proof (escapeChar_length c) as (Hc & Hone).
  pose proof (escapeHtml_length_ge s).
  constructor; [apply Hone; lia | apply IH; lia].
Qed.

(** X1: [escapeHtml] is injective: two different texts never get the same
    escaped form. *)
Theorem escapeHtml_injective (a b : jsstring) :
  escapeHtml a = escapeHtml b -> a = b.
Proof.
  intros H. rewrite <- (unescape_escape a), <- (unescape_escape b), H. reflexivity.
Qed.

Lemma escapeHtml_injective_witness : [AMP; LT] = str "&<".
Proof. apply (escapeHtml_injective [AMP; LT] (str "&<")). reflexivity. Defined.

Lemma escapeHtml_chars (s : jsstring) :
  Forall (fun x => x <> LT /\ x <> GT /\ x <> QUOT /\ x <> APOS) (escapeHtml s).
Proof.
  rewrite escapeHtml_table. induction s as [|c s IH]; [constructor|].
  simpl. apply Forall_app. split; [|assumption].
  unfold escapeChar.
  destruct (N.eqb_spec c AMP); [|destruct (N.eqb_spec c LT);
    [|destruct (N.eqb_spec c GT); [|destruct (N.eqb_spec c QUOT);
      [|destruct (N.eqb_spec c APOS)]]]];
    repeat constructor; try discriminate; assumption.
Qed.

(** X2: the result of [escapeHtml] holds none of the characters
    less-than, greater-than, double quote and single quote, whatever the
    text. *)
Theorem escapeHtml_safe (s : jsstring) :
  Forall (fun x => x <> LT /\ x <> GT /\ x <> QUOT /\ x <> APOS) (escapeHtml s).
Proof.
  rewrite Forall_forall. intros x Hx.
  pose proof (escapeHtml_chars s) as H. rewrite Forall_forall in H. auto.
Qed.

(** X3: [escapeHtml] leaves a text unchanged exactly when the text holds
    none of the five characters, and escaping a second time changes the
    result exactly when it holds one of them. *)
Theorem escapeHtml_fixed (s : jsstring) :
  (escapeHtml s = s
   <-> Forall (fun c => c <> AMP /\ c <> LT /\ c <> GT /\ c <> QUOT /\ c <> APOS) s)
  /\ (escapeHtml (escapeHtml s) = escapeHtml s
      <-> Forall (fun c => c <> AMP /\ c <> LT /\ c <> GT /\ c <> QUOT /\ c <> APOS) s).
Proof.
  assert (Hfix : escapeHtml s = s
     <-> Forall (fun c => c <> AMP /\ c <> LT /\ c <> GT /\ c <> QUOT /\ c <> APOS) s).
  { split.
    - intros H. apply escapeHtml_same_length. rewrite H. reflexivity.
    - intros H. rewrite escapeHtml_table. induction H as [|c s Hc _ IH]; [reflexivity|].
      simpl. rewrite escapeChar_plain by assumption. rewrite IH. reflexivity. }
  split; [exact Hfix|]. rewrite <- Hfix. split.
  - intros H. rewrite <- (unescape_escape (escapeHtml s)), H. apply unescape_escape.
  - intros H. rewrite H. assumption.
Qed.

(** X4: the escaped text is at least as long as the text and at most six
    times as long. *)
Theorem escapeHtml_length (s : jsstring) :
  length s <= length (escapeHtml s) <= 6 * length s.
Proof.
  split; [apply escapeHtml_length_ge|].
  rewrite escapeHtml_table. induction s as [|c s IH]; [simpl; lia|].
  simpl flat_map. rewrite length_app. pose proof (escapeChar_length c). simpl length. lia.
Qed.

(** X5: escaping the parts of a text one by one and joining the results is
    escaping the whole text. *)
Theorem escapeHtml_concat (parts : list jsstring) :
  escapeHtml (concat parts) = concat (map escapeHtml parts).
Proof.
  induction parts as [|a parts IH]; [reflexivity|].
  simpl. rewrite escapeHtml_table, flat_map_app, <- !escapeHtml_table, IH. reflexivity.
Qed.

(** ** The renderer on any token list *)

(** X6: the contract of the renderer.  For any token list, from the scan
    or not, whose tokens follow one another without overlap and carry the
    text of their non-empty spans, the markup with the tags stripped is the
    escaped input, and undoing the escaping gives back the input. *)
Theorem render_contract (text : jsstring) (tokens : list Token) :
  chain 0 tokens -> Forall (tokenOK text) tokens ->
  strip_tags (render text tokens) = escapeHtml text
  /\ unescapeHtml (strip_tags (render text tokens)) = text.
Proof.
  intros Hc Hok.
  assert (Hs : strip_tags (render text tokens) = escapeHtml text).
  { rewrite render_pieces, strip_emit.
    rewrite (pieces_raw text tokens 0) by (assumption || lia). reflexivity. }
  split; [assumption|]. rewrite Hs. apply unescape_escape.
Qed.

Lemma render_contract_witness :
  strip_tags (render (str "a <b") [mkToken key (str "<") 2 3]) = escapeHtml (str "a <b")
  /\ unescapeHtml (strip_tags (render (str "a <b") [mkToken key (str "<") 2 3]))
     = str "a <b".
Proof.
  apply (render_contract (str "a <b") [mkToken key (str "<") 2 3]).
  - simpl. split; [lia | exact I].
  - constructor; [|constructor]. split; simpl; [lia | lia | reflexivity].
Defined.

Lemma count_escapeHtml (s : jsstring) (x : unit16) :
  x = LT \/ x = GT \/ x = QUOT \/ x = APOS ->
  count_occ N.eq_dec (escapeHtml s) x = 0.
Proof.
  intros Hx. apply count_occ_not_In. intros Hin.
  pose proof (escapeHtml_chars s) as Hsafe. rewrite Forall_forall in Hsafe.
  apply Hsafe in Hin. destruct Hin as (H1 & H2 & H3 & H4).
  destruct Hx as [->|[->|[->| ->]]]; congruence.
Qed.

Lemma count_wrap (t : Token) :
  count_occ N.eq_dec (wrap t) LT = 2
  /\ count_occ N.eq_dec (wrap t) GT = 2
  /\ count_occ N.eq_dec (wrap t) QUOT = 2
  /\ count_occ N.eq_dec (wrap t) APOS = 0.
Proof.
  unfold wrap. rewrite !count_occ_app.
  rewrite !(count_escapeHtml (tvalue t)) by auto.
  destruct (type t); repeat split; reflexivity.
Qed.

Lemma count_pieces (text : jsstring) (tokens : list Token) (lastPos : nat) (x : unit16) (k : nat) :
  x = LT \/ x = GT \/ x = QUOT \/ x = APOS ->
  (forall t, count_occ N.eq_dec (wrap t) x = k) ->
  count_occ N.eq_dec (flat_map emit (pieces text lastPos tokens)) x = k * length tokens.
Proof.
  intros Hx Hk. revert lastPos. induction tokens as [|t tokens IH]; intros lastPos.
  - simpl. destruct (lastPos <? length text); simpl; rewrite ?app_nil_r;
      rewrite ?count_escapeHtml by assumption; simpl; lia.
  - cbn [pieces]. rewrite flat_map_app. cbn [flat_map emit].
    rewrite !count_occ_app, IH, Hk.
    destruct (lastPos <? start t); simpl; rewrite ?app_nil_r;
      rewrite ?count_escapeHtml by assumption; simpl; lia.
Qed.

(** X7: the markup is made of two tags per token and of escaped text.
    Whatever the text and the token list, the markup holds exactly two
    less-than signs, two greater-than signs and two double quotes for each
    token, and no single quote: none of these characters comes from the
    input. *)
Theorem render_tag_count (text : jsstring) (tokens : list Token) :
  count_occ N.eq_dec (render text tokens) LT = 2 * length tokens
  /\ count_occ N.eq_dec (render text tokens) GT = 2 * length tokens
  /\ count_occ N.eq_dec (render text tokens) QUOT = 2 * length tokens
  /\ count_occ N.eq_dec (render text tokens) APOS = 0.
Proof.
  rewrite render_pieces.
  repeat split.
  - apply count_pieces; [auto | intros t; apply count_wrap].
  - apply count_pieces; [auto | intros t; apply count_wrap].
  - apply count_pieces; [auto | intros t; apply count_wrap].
  - rewrite (count_pieces text tokens 0 APOS 0); [reflexivity | auto |].
    intros t. apply count_wrap.
Qed.

(** ** The tokens of the scan *)

Lemma Emits_first (text : jsstring) (i : nat) (t : Token) :
  Emits text i t -> isWhitespace (charAt text i) = false.
Proof.
  destruct 1 as [c Hc [-> | ->] | Hc | q j Hq [-> | [-> | ->]] | q Hq [-> | [-> | ->]]
                 | op Hin Hww | e k Hp | j Hp];
    try (rewrite Hc; reflexivity); try (rewrite Hq; reflexivity).
  - apply wholeWord_found in Hww as (_ & Hp); [|assumption].
    apply plainChar_split in Hp. tauto.
  - apply plainChar_split in Hp. tauto.
  - apply plainChar_split in Hp. tauto.
Qed.

Lemma not_plain (text : jsstring) (i : nat) (c : unit16) :
  charAt text i = Some c ->
  c = LPAREN \/ c = RPAREN \/ c = EQUALS \/ c = QUOT \/ c = APOS \/ c = RDQUO ->
  plainChar text i = false.
Proof.
  intros Hc H. unfold plainChar. rewrite Hc.
  destruct H as [->|[->|[->|[->|[->| ->]]]]]; reflexivity.
Qed.

(** The characters of a word that matches an operator word are letters. *)
Lemma eqIgnoreCase_letters (s op : jsstring) (k : nat) (c : unit16) :
  forallb opLetter op = true -> eqIgnoreCase s op = true ->
  nth_error s k = Some c -> isWhitespace (Some c) = false.
Proof.
  revert op k. induction s as [|x s IH]; intros [|o op] k Hop Heq Hk;
    try discriminate; [destruct k; discriminate|].
  simpl in Hop, Heq.
  apply andb_true_iff in Hop as (Ho & Hop). apply andb_true_iff in Heq as (Hx & Heq).
  destruct k as [|k]; [|eapply IH; eassumption].
  simpl in Hk. injection Hk as ->.
  unfold opLetter in Ho. simpl in Ho. rewrite !orb_true_iff, !N.eqb_eq in Ho.
  apply orb_true_iff in Hx. rewrite !N.eqb_eq in Hx.
  destruct Ho as [Ho|[Ho|[Ho|[Ho|[Ho|[Ho|Ho]]]]]]; try discriminate Ho;
    subst o; destruct Hx as [-> | ->]; reflexivity.
Qed.

Lemma wholeWord_chars (text : jsstring) (i p : nat) (op : jsstring) :
  In op logicalOperators -> wholeWord text i op = true ->
  i <= p < i + length op -> isWhitespace (charAt text p) = false.
Proof.
  intros Hin Hww Hp. pose proof Hww as Heq. unfold wholeWord in Heq.
  apply andb_true_iff in Heq as (Heq & _). apply andb_true_iff in Heq as (Heq & _).
  assert (Hop : forallb opLetter op = true).
  { pose proof operators_letters as H. rewrite Forall_forall in H. auto. }
  destruct (charAt text p) as [c|] eqn:Hc; [|reflexivity].
  apply (eqIgnoreCase_letters (substr text i (length op)) op (p - i) c); try assumption.
  unfold substr. rewrite nth_error_firstn.
  destruct (Nat.ltb_spec (p - i) (length op)); [|lia].
  rewrite nth_error_skipn. replace (i + (p - i)) with p by lia. exact Hc.
Qed.

Lemma chain_split_before (lo : nat) (l1 l2 : list Token) (a c : Token) :
  chain lo (l1 ++ a :: l2) -> Forall (fun t => start t < end_ t) (l1 ++ a :: l2) ->
  In c l1 -> end_ c <= start a.
Proof.
  revert lo. induction l1 as [|x l1 IH]; intros lo Hc Hne Hin; [destruct Hin|].
  simpl in Hc. destruct Hc as (_ & Hc). inversion Hne as [|? ? Hx Hne']; subst.
  destruct Hin as [->|Hin]; [|eapply IH; eassumption].
  apply (chain_lower (end_ c) (l1 ++ a :: l2) a Hc Hne').
  apply in_or_app. right. left. reflexivity.
Qed.

Lemma chain_split_after (lo : nat) (l1 l2 : list Token) (a : Token) :
  chain lo (l1 ++ a :: l2) -> chain (end_ a) l2.
Proof.
  revert lo. induction l1 as [|x l1 IH]; intros lo Hc.
  - simpl in Hc. tauto.
  - simpl in Hc. destruct Hc as (_ & Hc). eapply IH. eassumption.
Qed.

Lemma chain_count (lo : nat) (tokens : list Token) :
  chain lo tokens -> Forall (fun t => start t < end_ t) tokens ->
  lo + length tokens <= lastEnd lo tokens.
Proof.
  revert lo. induction tokens as [|t tokens IH]; intros lo Hc Hne.
  - unfold lastEnd. simpl. lia.
  - destruct Hc as (Hlo & Hc). inversion Hne; subst.
    specialize (IH (end_ t) Hc ltac:(assumption)).
    unfold lastEnd in *. simpl in *. lia.
Qed.

(** X8: the scan yields at most as many tokens as the input has
    characters. *)
Theorem tokenize_count (text : jsstring) :
  exists tokens, tokenize text = Some tokens /\ length tokens <= length text.
Proof.
  destruct (tokenize_total text) as (tokens & Ht & _ & Hok & _ & Hchain & Hlast & _).
  simpl in Hok, Hchain, Hlast. exists tokens. split; [assumption|].
  pose proof (chain_count 0 tokens Hchain (tokenOK_nonempty text tokens Hok)). lia.
Qed.

(** X9: the scan yields no token exactly when the input consists of
    whitespace only (the empty input included), and the markup of such an
    input is the input itself. *)
Theorem tokenize_nothing (text : jsstring) :
  (tokenize text = Some []
   <-> Forall (fun c => isWhitespace (Some c) = true) text)
  /\ (Forall (fun c => isWhitespace (Some c) = true) text ->
      parseAndHighlight text = Some text).
Proof.
  destruct (tokenize_emits text) as (tokens & Ht & Hinv & Hem).
  destruct Hinv as (_ & Hok & _ & _ & _ & Hcov). simpl in Hok, Hcov.
  assert (Hiff : tokenize text = Some []
                 <-> Forall (fun c => isWhitespace (Some c) = true) text).
  { split.
    - intros H. rewrite H in Ht. injection Ht as <-.
      rewrite <- (substring_whole text). apply substring_Forall; try lia.
      intros k c Hk Hc. destruct (Hcov k ltac:(lia)) as [(t & [] & _)|Hw].
      rewrite Hc in Hw. exact Hw.
    - intros Hall. destruct tokens as [|t tokens]; [assumption|]. exfalso.
      inversion Hok as [|? ? [Hne Hb _] _]; subst.
      inversion Hem as [|? ? Ht0 _]; subst.
      apply Emits_first in Ht0.
      destruct (charAt text (start t)) as [c|] eqn:Hc.
      + rewrite Forall_forall in Hall. rewrite (Hall c) in Ht0; [discriminate|].
        unfold charAt in Hc. eapply nth_error_In. eassumption.
      + apply nth_error_None in Hc. lia. }
  split; [exact Hiff|].
  intros Hall. unfold parseAndHighlight. rewrite (proj2 Hiff Hall).
  unfold render. simpl. f_equal.
  assert (He : escapeHtml text = text).
  { rewrite escapeHtml_table. clear -Hall.
    induction Hall as [|c s Hc _ IH]; [reflexivity|].
    simpl. rewrite IH. rewrite escapeChar_plain; [reflexivity|].
    repeat split; intros ->; discriminate Hc. }
  destruct text as [|c text']; [reflexivity|]. simpl Nat.ltb. cbv iota.
  unfold substringFrom. simpl skipn. exact He.
Qed.

Lemma plain_not_special (text : jsstring) (i : nat) :
  plainChar text i = true ->
  charAt text i <> Some LPAREN /\ charAt text i <> Some RPAREN
  /\ charAt text i <> Some EQUALS /\ charAt text i <> Some QUOT
  /\ charAt text i <> Some APOS /\ charAt text i <> Some RDQUO.
Proof.
  intros Hp. repeat split; intros Hc;
    rewrite (not_plain text i _ Hc) in Hp by tauto; discriminate.
Qed.

Lemma Emits_last (text : jsstring) (i : nat) (t : Token) :
  Emits text i t -> type t <> quote ->
  isWhitespace (charAt text (end_ t - 1)) = false.
Proof.
  intros Hem. pose proof (Emits_first text i t Hem) as Hfirst.
  destruct Hem as [c Hc Hk | Hc | q j Hq | q Hq
                   | op Hin Hww | e k Hp Hop Hk He Heq Hne Hws Hlast | j Hp Hop Hne Hj Hrun Hend];
    simpl; intros Hty; try congruence.
  - replace (i + 1 - 1) with i by lia. assumption.
  - replace (i + 1 - 1) with i by lia. assumption.
  - assert (2 <= length op) by (simpl in Hin; destruct Hin as [<-|[<-|[<-|[]]]]; simpl; lia).
    apply (wholeWord_chars text i (i + length op - 1) op Hin Hww). lia.
  - specialize (Hrun (j - 1) ltac:(lia)). apply plainChar_split in Hrun. tauto.
Qed.

(** X10: no token of the scan starts with a whitespace character, and no
    token other than a quote token ends with one. *)
Theorem token_edges (text : jsstring) :
  exists tokens,
    tokenize text = Some tokens
    /\ forall t, In t tokens ->
         isWhitespace (charAt text (start t)) = false
         /\ (type t <> quote -> isWhitespace (charAt text (end_ t - 1)) = false).
Proof.
  destruct (tokenize_emits text) as (tokens & Ht & _ & Hem).
  exists tokens. split; [assumption|]. intros t Hin.
  rewrite Forall_forall in Hem. specialize (Hem t Hin). split.
  - eapply Emits_first. eassumption.
  - eapply Emits_last. eassumption.
Qed.

Lemma Emits_kind (text : jsstring) (i : nat) (t : Token) :
  Emits text i t ->
  (type t = parenthesis
   <-> charAt text i = Some LPAREN \/ charAt text i = Some RPAREN)
  /\ (type t = equals <-> charAt text i = Some EQUALS)
  /\ (type t = quote
      <-> charAt text i = Some QUOT \/ charAt text i = Some APOS
          \/ charAt text i = Some RDQUO)
  /\ (type t = parenthesis \/ type t = equals -> end_ t = i + 1).
Proof.
  destruct 1 as [c Hc [-> | ->] | Hc | q j Hq [-> | [-> | ->]] | q Hq [-> | [-> | ->]]
                 | op Hin Hww | e k Hp | j Hp];
    try (apply wholeWord_found in Hww as (_ & Hp); [|assumption]);
    try (apply plain_not_special in Hp);
    try rewrite Hc; try rewrite Hq; simpl;
    unfold LPAREN, RPAREN, EQUALS, QUOT, APOS, RDQUO in *;
    repeat split; intros; try discriminate; try tauto;
    try (intuition congruence).
Qed.

(** X11: the first character of a token tells whether it is a parenthesis,
    an equals or a quote token.  A token of the scan is a parenthesis token
    exactly when it starts with a parenthesis, an equals token exactly when it
    starts with the equals sign, and a quote token exactly when it starts with
    one of the three quote characters; parenthesis and equals tokens are one
    character long. *)
Theorem token_kind_by_first_char (text : jsstring) :
  exists tokens,
    tokenize text = Some tokens
    /\ forall t, In t tokens ->
         (type t = parenthesis
          <-> charAt text (start t) = Some LPAREN \/ charAt text (start t) = Some RPAREN)
         /\ (type t = equals <-> charAt text (start t) = Some EQUALS)
         /\ (type t = quote
             <-> charAt text (start t) = Some QUOT \/ charAt text (start t) = Some APOS
                 \/ charAt text (start t) = Some RDQUO)
         /\ (type t = parenthesis \/ type t = equals -> end_ t = start t + 1).
Proof.
  destruct (tokenize_emits text) as (tokens & Ht & _ & Hem).
  exists tokens. split; [assumption|]. intros t Hin.
  rewrite Forall_forall in Hem. apply Emits_kind. auto.
Qed.

Lemma Emits_text (text : jsstring) (i : nat) (t : Token) :
  Emits text i t -> type t = text_ ->
  (forall p, i <= p < end_ t -> plainChar text p = true)
  /\ (end_ t < length text -> plainChar text (end_ t) = false)
  /\ (forall p, i <= p < length text -> charAt text p <> Some EQUALS).
Proof.
  destruct 1; simpl; intros Hty; try discriminate Hty. auto.
Qed.

(** X12: a text token of the scan consists of plain characters only
    (no whitespace, parenthesis, equals sign or quote character), it ends at
    the end of the input or before a character that is not plain, and no
    equals sign occurs anywhere in the input from its start on. *)
Theorem text_tokens (text : jsstring) :
  exists tokens,
    tokenize text = Some tokens
    /\ forall t, In t tokens -> type t = text_ ->
         (forall p, start t <= p < end_ t -> plainChar text p = true)
         /\ (end_ t < length text -> plainChar text (end_ t) = false)
         /\ (forall p, start t <= p < length text -> charAt text p <> Some EQUALS).
Proof.
  destruct (tokenize_emits text) as (tokens & Ht & _ & Hem).
  exists tokens. split; [assumption|]. intros t Hin Hty.
  rewrite Forall_forall in Hem. apply Emits_text; auto.
Qed.

Lemma Emits_key (text : jsstring) (i : nat) (t : Token) :
  Emits text i t -> type t = key ->
  exists e, end_ t <= e < length text
            /\ charAt text e = Some EQUALS
            /\ (forall p, i <= p < e -> charAt text p <> Some EQUALS)
            /\ (forall p, end_ t <= p < e -> isWhitespace (charAt text p) = true).
Proof.
  destruct 1 as [| | | | | e k Hp Hop Hk He Heq Hne Hws Hlast |]; simpl; intros Hty;
    try discriminate Hty.
  exists e. repeat split; try assumption; lia.
Qed.

Lemma Emits_at_equals (text : jsstring) (i : nat) (t : Token) :
  Emits text i t -> charAt text i = Some EQUALS -> type t = equals /\ end_ t = i + 1.
Proof.
  intros Hem Hc. destruct (Emits_kind text i t Hem) as (_ & He & _ & Hlen).
  apply He in Hc. auto.
Qed.

(** X13: a key token of the scan holds no equals sign and is always followed
    by an equals token, with nothing but whitespace between the two. *)
Theorem key_then_equals (text : jsstring) :
  exists tokens,
    tokenize text = Some tokens
    /\ forall before a after,
         tokens = before ++ a :: after -> type a = key ->
         (forall p, start a <= p < end_ a -> charAt text p <> Some EQUALS)
         /\ exists b rest,
              after = b :: rest /\ type b = equals
              /\ charAt text (start b) = Some EQUALS
              /\ end_ a <= start b
              /\ forall p, end_ a <= p < start b -> isWhitespace (charAt text p) = true.
Proof.
  destruct (tokenize_emits text) as (tokens & Ht & Hinv & Hem).
  destruct Hinv as (_ & Hok & _ & Hchain & _ & Hcov). simpl in Hok, Hchain, Hcov.
  exists tokens. split; [assumption|]. intros l1 a l2 -> Hty.
  pose proof (tokenOK_nonempty text _ Hok) as Hne.
  rewrite Forall_forall in Hem.
  assert (Ha : In a (l1 ++ a :: l2)) by (apply in_or_app; right; left; reflexivity).
  destruct (Emits_key text (start a) a (Hem a Ha) Hty) as (e & He & Heq & Hnone & Hws).
  split; [intros p Hp; apply Hnone; lia|].
  assert (Hnws : isWhitespace (charAt text e) = false) by (rewrite Heq; reflexivity).
  destruct (Hcov e ltac:(lia)) as [(c & Hin & Hc)|Hw]; [|congruence].
  apply in_app_or in Hin. destruct Hin as [Hin|[<-|Hin]].
  - pose proof (chain_split_before 0 l1 l2 a c Hchain Hne Hin).
    rewrite Forall_forall in Hok. destruct (Hok a Ha). lia.
  - lia.
  - pose proof (chain_split_after 0 l1 l2 a Hchain) as Hafter.
    destruct l2 as [|b rest]; [destruct Hin|].
    assert (Hb : In b (l1 ++ a :: b :: rest))
      by (apply in_or_app; right; right; left; reflexivity).
    pose proof (Hem b Hb) as Hemb.
    pose proof (Emits_first text (start b) b Hemb) as Hfirst.
    destruct Hafter as (Hab & Hrest).
    assert (Hbc : start b <= start c).
    { destruct Hin as [<-|Hin]; [lia|].
      assert (Hne' : Forall (fun t => start t < end_ t) rest).
      { apply Forall_app in Hne as (_ & Hne). inversion Hne as [|? ? _ Hne2]; subst.
        inversion Hne2; subst. assumption. }
      pose proof (chain_lower (end_ b) rest c Hrest Hne' Hin).
      rewrite Forall_forall in Hok. destruct (Hok b Hb). lia. }
    assert (start b = e).
    { destruct (Nat.eq_dec (start b) e) as [|Hneq]; [assumption|].
      rewrite Hws in Hfirst by lia. discriminate. }
    exists b, rest. split; [reflexivity|].
    destruct (Emits_at_equals text (start b) b Hemb) as (Htyb & _); [congruence|].
    repeat split; try assumption; try congruence.
    intros p Hp. apply Hws. lia.
Qed.

(** X14: a quote token of the scan starts with one of the three quote
    characters; no later position strictly inside it holds the same quote
    character without a backslash before it; and it either ends with such a
    closing quote, or runs to the end of the input without one. *)
Theorem quote_tokens (text : jsstring) :
  exists tokens,
    tokenize text = Some tokens
    /\ forall t, In t tokens -> type t = quote ->
         exists q, charAt text (start t) = Some q
           /\ (q = QUOT \/ q = APOS \/ q = RDQUO)
           /\ (forall k, start t < k < end_ t - 1 -> closesAt text q k = false)
           /\ ((start t + 2 <= end_ t /\ closesAt text q (end_ t - 1) = true)
               \/ (end_ t = length text
                   /\ forall k, start t < k < length text -> closesAt text q k = false)).
Proof.
  destruct (tokenize_emits text) as (tokens & Ht & _ & Hem).
  exists tokens. split; [assumption|]. intros t Hin Hty.
  rewrite Forall_forall in Hem. specialize (Hem t Hin).
  remember (start t) as i eqn:Hi.
  destruct Hem as [| | q j Hq Hk Hj Hclose Hfirst | q Hq Hk Hnone | | |];
    simpl in Hty; try discriminate Hty; simpl.
  - exists q. repeat split; try assumption.
    + intros k Hkj. apply Hfirst. lia.
    + left. replace (j + 1 - 1) with j by lia. split; [lia | assumption].
  - exists q. repeat split; try assumption.
    + intros k Hkj. apply Hnone. lia.
    + right. split; [reflexivity | assumption].
Qed.

(** ** Small inputs *)

Lemma Emits_one_char (c : unit16) (t : Token) :
  Emits [c] 0 t ->
  t = mkToken (if (c =? LPAREN)%N || (c =? RPAREN)%N then parenthesis
               else if (c =? EQUALS)%N then equals
               else if isQuoteChar (Some c) then quote
               else text_) [c] 0 1.
Proof.
  destruct 1 as [c0 Hc [-> | ->] | Hc | q j Hq Hk Hj | q Hq [-> | [-> | ->]]
                 | op Hin Hww | e k Hp Hop Hk He | j Hp Hop Hne Hj].
  - injection Hc as ->. reflexivity.
  - injection Hc as ->. reflexivity.
  - injection Hc as ->. reflexivity.
  - simpl in Hj. lia.
  - injection Hq as ->. reflexivity.
  - injection Hq as ->. reflexivity.
  - injection Hq as ->. reflexivity.
  - exfalso. simpl in Hin. destruct Hin as [<-|[<-|[<-|[]]]];
      unfold wholeWord, substr in Hww; simpl in Hww;
      rewrite ?andb_false_r in Hww; simpl in Hww; discriminate.
  - simpl in He. lia.
  - simpl in Hj. assert (j = 1) by lia. subst j.
    apply plainChar_split in Hp as (_ & H2 & H3 & H4). simpl in H2, H3, H4.
    rewrite H2, H3, H4. reflexivity.
Qed.

(** X15: inputs of one character.  A whitespace character gives no token;
    any other character gives one token of length one with this character as
    content: a parenthesis, an equals or a quote token for these characters
    (a lone quote character is an unterminated quote), and a text token
    otherwise: the operator and key rules never apply at the last character
    of an input. *)
Theorem tokenize_one_char (c : unit16) :
  tokenize [c] =
  Some (if isWhitespace (Some c) then []
        else [mkToken (if (c =? LPAREN)%N || (c =? RPAREN)%N then parenthesis
                       else if (c =? EQUALS)%N then equals
                       else if isQuoteChar (Some c) then quote
                       else text_) [c] 0 1]).
Proof.
  unfold tokenize, tokenizeFuel, scan. change (length [c]) with 1.
  destruct (iteration_emits 2 [c] 0 [] ltac:(simpl; lia) ltac:(simpl; lia))
    as [(Hws & E)|(Hws & t & Hem & E)];
    change (charAt [c] 0) with (Some c) in Hws; rewrite Hws;
    cbn [while]; cbv beta; cbn [fst]; change (0 <? 1) with true; cbv iota;
    rewrite E.
  - reflexivity.
  - apply Emits_one_char in Hem. rewrite Hem. reflexivity.
Qed.

(** ** Whitespace before the input *)

Lemma while_sim {S1 S2 : Type} (f : S1 -> S2)
    (cond1 : S1 -> bool) (cond2 : S2 -> bool)
    (body1 : S1 -> option S1) (body2 : S2 -> option S2) :
  (forall s, cond2 (f s) = cond1 s) ->
  (forall s, cond1 s = true -> body2 (f s) = option_map f (body1 s)) ->
  forall fuel s, while fuel cond2 body2 (f s) = option_map f (while fuel cond1 body1 s).
Proof.
  intros Hc Hb fuel. induction fuel as [|fuel IH]; intros s; [reflexivity|].
  simpl. rewrite Hc. destruct (cond1 s) eqn:E; [|reflexivity].
  rewrite (Hb s E). destruct (body1 s) as [s'|]; [apply IH | reflexivity].
Qed.

Section Prefix.

Variable w : jsstring.
Variable text : jsstring.
Hypothesis blank : Forall (fun c => isWhitespace (Some c) = true) w.

Lemma charAt_shift (i : nat) : charAt (w ++ text) (length w + i) = charAt text i.
Proof.
  unfold charAt. rewrite nth_error_app2 by lia. f_equal. lia.
Qed.

Lemma charAt_prefix (i : nat) :
  i < length w ->
  isWhitespace (charAt (w ++ text) i) = true
  /\ isChar (charAt (w ++ text) i) BACKSLASH = false.
Proof.
  intros Hi. unfold charAt. rewrite nth_error_app1 by assumption.
  destruct (nth_error w i) as [c|] eqn:E; [|apply nth_error_None in E; lia].
  apply nth_error_In in E. rewrite Forall_forall in blank. specialize (blank c E).
  split; [assumption|]. simpl. destruct (N.eqb_spec c BACKSLASH) as [->|]; [|reflexivity].
  discriminate blank.
Qed.

Lemma length_shift : length (w ++ text) = length w + length text.
Proof. apply length_app. Qed.

Lemma skipn_shift (a : nat) : skipn (length w + a) (w ++ text) = skipn a text.
Proof.
  rewrite skipn_app. rewrite skipn_all2 by lia. simpl. f_equal. lia.
Qed.

Lemma substring_shift (a b : nat) :
  substring (w ++ text) (length w + a) (length w + b) = substring text a b.
Proof.
  unfold substring. rewrite length_shift.
  rewrite !Nat.add_min_distr_l, Nat.add_max_distr_l, skipn_shift.
  f_equal. lia.
Qed.

Lemma substringFrom_shift (a : nat) :
  substringFrom (w ++ text) (length w + a) = substringFrom text a.
Proof. apply skipn_shift. Qed.

Lemma substr_shift (a len : nat) :
  substr (w ++ text) (length w + a) len = substr text a len.
Proof. unfold substr. rewrite skipn_shift. reflexivity. Qed.

(** The character before position [length w + i]: the one before [i], or
    whitespace. *)
Lemma before_shift (i : nat) :
  ((length w + i =? 0) || isWhitespace (charAt (w ++ text) (length w + i - 1)))
  = ((i =? 0) || isWhitespace (charAt text (i - 1))).
Proof.
  destruct i as [|i].
  - rewrite Nat.add_0_r. simpl. destruct (length w) as [|d] eqn:E; [reflexivity|].
    simpl. rewrite Nat.sub_0_r.
    destruct (charAt_prefix d ltac:(lia)) as (-> & _). reflexivity.
  - replace (length w + S i - 1) with (length w + i) by lia.
    replace (S i - 1) with i by lia. rewrite charAt_shift.
    destruct (length w + S i) eqn:E; [lia|]. reflexivity.
Qed.

Lemma backslash_shift (i : nat) :
  ((0 <? length w + i) && isChar (charAt (w ++ text) (length w + i - 1)) BACKSLASH)
  = ((0 <? i) && isChar (charAt text (i - 1)) BACKSLASH).
Proof.
  destruct i as [|i].
  - rewrite Nat.add_0_r. simpl. destruct (length w) as [|d] eqn:E; [reflexivity|].
    simpl. rewrite Nat.sub_0_r.
    destruct (charAt_prefix d ltac:(lia)) as (_ & ->). reflexivity.
  - replace (length w + S i - 1) with (length w + i) by lia.
    replace (S i - 1) with i by lia. rewrite charAt_shift.
    destruct (length w + S i) eqn:E; [lia|]. reflexivity.
Qed.

Lemma ltb_shift (a b : nat) : (length w + a <? length w + b) = (a <? b).
Proof.
  destruct (Nat.ltb_spec a b), (Nat.ltb_spec (length w + a) (length w + b));
    try reflexivity; lia.
Qed.

Lemma leb_shift (a b : nat) : (length w + a <=? length w + b) = (a <=? b).
Proof.
  destruct (Nat.leb_spec a b), (Nat.leb_spec (length w + a) (length w + b));
    try reflexivity; lia.
Qed.

Variable fuel : nat.

Lemma closingQuote_shift (q : option unit16) (i : nat) :
  closingQuote fuel (w ++ text) q (length w + i)
  = option_map (Nat.add (length w)) (closingQuote fuel text q i).
Proof.
  unfold closingQuote. apply while_sim.
  - intros k. rewrite length_shift, ltb_shift, charAt_shift, backslash_shift. reflexivity.
  - intros k _. simpl. f_equal. lia.
Qed.

Lemma quoteRule_shift (i : nat) :
  quoteRule fuel (w ++ text) (length w + i)
  = option_map (shiftResult (length w)) (quoteRule fuel text i).
Proof.
  unfold quoteRule.
  replace (length w + i + 1) with (length w + (i + 1)) by lia.
  rewrite closingQuote_shift, charAt_shift.
  destruct (closingQuote fuel text (charAt text i) (i + 1)) as [j|]; [|reflexivity].
  simpl. rewrite length_shift, ltb_shift, charAt_shift.
  replace (length w + j + 1) with (length w + (j + 1)) by lia.
  rewrite substring_shift, substringFrom_shift.
  destruct (_ && _); reflexivity.
Qed.

Lemma operatorRule_shift (ops : list jsstring) (i : nat) :
  operatorRule (w ++ text) ops (length w + i)
  = option_map (shiftResult (length w)) (operatorRule text ops i).
Proof.
  induction ops as [|op ops IH]; [reflexivity|].
  cbn [operatorRule]. rewrite IH, substr_shift, before_shift, length_shift.
  replace (length w + i + length op) with (length w + (i + length op)) by lia.
  rewrite leb_shift, charAt_shift, substring_shift.
  destruct (eqstr _ _); [|reflexivity]. destruct (_ && _); reflexivity.
Qed.

Lemma keyRule_shift (i : nat) :
  keyRule fuel (w ++ text) (length w + i)
  = option_map (option_map (shiftResult (length w))) (keyRule fuel text i).
Proof.
  unfold keyRule. rewrite length_shift.
  assert (Hg : (length w + i <? length w + length text - 1) = (i <? length text - 1)).
  { destruct (Nat.ltb_spec i (length text - 1)),
      (Nat.ltb_spec (length w + i) (length w + length text - 1)); try reflexivity; lia. }
  rewrite Hg. destruct (i <? length text - 1); [|reflexivity].
  rewrite (while_sim (Nat.add (length w))
             (fun e => (e <? length text) && negb (isChar (charAt text e) EQUALS))
             (fun e => (e <? length w + length text)
                       && negb (isChar (charAt (w ++ text) e) EQUALS))
             (fun e => Some (e + 1)) (fun e => Some (e + 1))).
  2: { intros k. rewrite ltb_shift, charAt_shift. reflexivity. }
  2: { intros k _. simpl. f_equal. lia. }
  destruct (while fuel _ _ i) as [e|]; [|reflexivity].
  simpl. rewrite ltb_shift, charAt_shift.
  destruct (_ && _); [|reflexivity].
  rewrite (while_sim (Nat.add (length w))
             (fun k => (i <? k) && isWhitespace (charAt text (k - 1)))
             (fun k => (length w + i <? k) && isWhitespace (charAt (w ++ text) (k - 1)))
             (fun k => Some (k - 1)) (fun k => Some (k - 1))).
  2: { intros k. rewrite ltb_shift. destruct (Nat.ltb_spec i k); [|reflexivity].
       simpl. replace (length w + k - 1) with (length w + (k - 1)) by lia.
       rewrite charAt_shift. reflexivity. }
  2: { intros k Hk. apply andb_true_iff in Hk as (Hk & _). apply Nat.ltb_lt in Hk.
       simpl. f_equal. lia. }
  destruct (while fuel _ _ e) as [k|]; [|reflexivity].
  simpl. rewrite ltb_shift, substring_shift.
  destruct (i <? k); reflexivity.
Qed.

Lemma textRun_shift (i : nat) :
  textRun fuel (w ++ text) (length w + i)
  = option_map (Nat.add (length w)) (textRun fuel text i).
Proof.
  unfold textRun. apply while_sim.
  - intros k. rewrite length_shift, ltb_shift, charAt_shift. reflexivity.
  - intros k _. simpl. f_equal. lia.
Qed.

Lemma push_shift (d : nat) (tokens : list Token) (t : Token) :
  push (map (shiftToken d) tokens) (shiftToken d t) = map (shiftToken d) (push tokens t).
Proof. unfold push. rewrite map_app. reflexivity. Qed.

Lemma textRule_shift (i : nat) (tokens : list Token) :
  textRule fuel (w ++ text) (length w + i) (map (shiftToken (length w)) tokens)
  = option_map (shiftState (length w)) (textRule fuel text i tokens).
Proof.
  unfold textRule. rewrite textRun_shift.
  destruct (textRun fuel text i) as [j|]; [|reflexivity].
  simpl. rewrite ltb_shift, substring_shift.
  destruct (i <? j); [|reflexivity].
  unfold shiftState. simpl. rewrite <- push_shift. reflexivity.
Qed.

(** A turn of the loop on the longer input, [length w] positions further,
    is the turn on the shorter input, moved. *)
Lemma iteration_shift (st : nat * list Token) :
  iteration fuel (w ++ text) (shiftState (length w) st)
  = option_map (shiftState (length w)) (iteration fuel text st).
Proof.
  destruct st as (i, tokens). unfold shiftState at 1. cbn [fst snd].
  unfold iteration. rewrite !charAt_shift.
  replace (length w + i + 1) with (length w + (i + 1)) by lia.
  destruct (isWhitespace (charAt text i)); [reflexivity|].
  destruct (_ || _).
  { unfold shiftState. simpl. rewrite <- push_shift. reflexivity. }
  destruct (isChar (charAt text i) EQUALS).
  { unfold shiftState. simpl. rewrite <- push_shift. reflexivity. }
  destruct (isQuoteChar (charAt text i)).
  { rewrite quoteRule_shift. destruct (quoteRule fuel text i) as [r|]; [|reflexivity].
    simpl. unfold shiftState. simpl. rewrite <- push_shift. reflexivity. }
  rewrite operatorRule_shift.
  destruct (operatorRule text logicalOperators i) as [r|].
  { simpl. unfold shiftState. simpl. rewrite <- push_shift. reflexivity. }
  simpl. rewrite keyRule_shift.
  destruct (keyRule fuel text i) as [[r|]|]; simpl; [| |reflexivity].
  - unfold shiftState. simpl. rewrite <- push_shift. reflexivity.
  - apply textRule_shift.
Qed.

(** The loop over the whitespace: from any position in [w] it reaches the
    end of [w] with no token. *)
Lemma scan_prefix (extra j : nat) (r : nat * list Token) :
  j + extra = length w ->
  while fuel (fun st => fst st <? length (w ++ text)) (iteration fuel (w ++ text))
        (length w, []) = Some r ->
  while (extra + fuel) (fun st => fst st <? length (w ++ text))
        (iteration fuel (w ++ text)) (j, []) = Some r.
Proof.
  revert j. induction extra as [|extra IH]; intros j Hj Hr.
  - simpl. replace j with (length w) by lia. exact Hr.
  - cbn [Nat.add while fst].
    assert (Hlt : (j <? length (w ++ text)) = true)
      by (apply Nat.ltb_lt; rewrite length_shift; lia).
    rewrite Hlt. unfold iteration at 1.
    destruct (charAt_prefix j ltac:(lia)) as (-> & _).
    replace (j + 1) with (S j) by lia. apply IH; [lia | assumption].
Qed.

End Prefix.

Lemma escapeHtml_blank (w : jsstring) :
  Forall (fun c => isWhitespace (Some c) = true) w -> escapeHtml w = w.
Proof.
  intros Hall. rewrite escapeHtml_table.
  induction Hall as [|c s Hc _ IH]; [reflexivity|].
  simpl. rewrite IH. rewrite escapeChar_plain; [reflexivity|].
  repeat split; intros ->; discriminate Hc.
Qed.

Lemma wrap_shift (d : nat) (t : Token) : wrap (shiftToken d t) = wrap t.
Proof. reflexivity. Qed.

Lemma pieces_shift (w text : jsstring) (tokens : list Token) (lastPos : nat) :
  flat_map emit (pieces (w ++ text) (length w + lastPos)
                        (map (shiftToken (length w)) tokens))
  = flat_map emit (pieces text lastPos tokens).
Proof.
  revert lastPos. induction tokens as [|t tokens IH]; intros lastPos.
  - simpl. rewrite length_shift, ltb_shift, substringFrom_shift. reflexivity.
  - cbn [map pieces]. rewrite !flat_map_app. cbn [flat_map emit].
    cbn [shiftToken start end_]. rewrite ltb_shift, substring_shift, IH.
    reflexivity.
Qed.

Lemma substring_prefix (w text : jsstring) (b : nat) :
  b <= length text ->
  substring (w ++ text) 0 (length w + b) = w ++ substring text 0 b.
Proof.
  intros Hb.
  rewrite (substring_split (w ++ text) 0 (length w) (length w + b))
    by (rewrite ?length_shift; lia).
  f_equal.
  - rewrite substring_ordered by (rewrite ?length_shift; lia).
    simpl. rewrite Nat.sub_0_r, firstn_app, Nat.sub_diag, firstn_all. simpl.
    apply app_nil_r.
  - rewrite <- (Nat.add_0_r (length w)) at 1. apply substring_shift.
Qed.

(** The markup of the longer input is the whitespace, then the markup of
    the shorter input. *)
Lemma render_shift (w text : jsstring) (tokens : list Token) :
  Forall (fun c => isWhitespace (Some c) = true) w ->
  Forall (tokenOK text) tokens ->
  render (w ++ text) (map (shiftToken (length w)) tokens) = w ++ render text tokens.
Proof.
  intros Hw Hok. rewrite !render_pieces. destruct tokens as [|t tokens].
  - simpl. rewrite length_shift. unfold substringFrom. simpl.
    destruct w as [|c w'], text as [|x text']; simpl; rewrite ?app_nil_r; try reflexivity.
    + apply escapeHtml_blank. assumption.
    + change (escapeHtml ((c :: w') ++ x :: text')
              = (c :: w') ++ escapeHtml (x :: text')).
      rewrite escapeHtml_app, escapeHtml_blank by assumption. reflexivity.
  - inversion Hok as [|? ? [Hne Hb _] _]; subst.
    cbn [map pieces]. rewrite !flat_map_app. cbn [flat_map emit].
    cbn [shiftToken start end_]. rewrite wrap_shift, pieces_shift.
    rewrite (app_assoc w). f_equal.
    rewrite substring_prefix by lia.
    destruct (Nat.ltb_spec 0 (length w + start t)) as [H|H].
    + simpl. rewrite app_nil_r, escapeHtml_app, escapeHtml_blank by assumption.
      f_equal. destruct (Nat.ltb_spec 0 (start t)); simpl.
      * rewrite app_nil_r. reflexivity.
      * replace (start t) with 0 by lia. rewrite substring_empty by lia. reflexivity.
    + assert (length w = 0) by lia. assert (start t = 0) by lia.
      destruct w; [|discriminate]. destruct (Nat.ltb_spec 0 (start t)); [lia|].
      reflexivity.
Qed.

(** X16: whitespace before the input only moves the tokens.  When [w] is
    whitespace, the scan of [w] followed by [text] yields the tokens of the
    scan of [text], each with the same type and content and moved by the
    length of [w], and the markup is [w] followed by the markup of [text]. *)
Theorem tokenize_after_whitespace (w text : jsstring) :
  Forall (fun c => isWhitespace (Some c) = true) w ->
  exists tokens,
    tokenize text = Some tokens
    /\ tokenize (w ++ text) = Some (map (shiftToken (length w)) tokens)
    /\ parseAndHighlight text = Some (render text tokens)
    /\ parseAndHighlight (w ++ text) = Some (w ++ render text tokens).
Proof.
  intros Hw.
  destruct (tokenize_total text) as (tokens & Ht & _ & Hok & _). simpl in Hok.
  destruct (tokenize_total (w ++ text)) as (tokens' & Ht' & _).
  exists tokens. split; [assumption|].
  set (F := S (length w + length text)).
  assert (E : tokenize (w ++ text) = Some (map (shiftToken (length w)) tokens)).
  { pose proof (tokenizeFuel_more_fuel (S (length text)) F text tokens
                  ltac:(unfold F; lia) Ht) as HtF.
    unfold tokenizeFuel in HtF.
    destruct (scan F text) as [st|] eqn:Hscan; [|discriminate]. injection HtF as Hst.
    pose proof (while_sim (shiftState (length w))
                  (fun st => fst st <? length text)
                  (fun st => fst st <? length (w ++ text))
                  (iteration F text) (iteration F (w ++ text))) as Hsim.
    specialize (Hsim ltac:(intros s; unfold shiftState; cbn [fst];
                           rewrite length_shift; apply ltb_shift)
                     ltac:(intros s _; apply iteration_shift; assumption)
                     F (0, [])).
    unfold scan in Hscan. rewrite Hscan in Hsim.
    unfold shiftState at 1 in Hsim. cbn [fst snd map option_map] in Hsim.
    rewrite Nat.add_0_r in Hsim.
    apply (scan_prefix w text Hw F (length w) 0) in Hsim; [|lia].
    apply (while_more_fuel _ _ (iteration (length w + F) (w ++ text))
             (fun s r => iteration_more_fuel F (length w + F) (w ++ text) s r
                           ltac:(lia))
             (length w + F) (length w + F) _ _ (le_n _)) in Hsim.
    pose proof (tokenizeFuel_more_fuel (S (length (w ++ text))) (length w + F)
                  (w ++ text) tokens'
                  ltac:(rewrite length_shift; unfold F; lia) Ht') as Ht'F.
    unfold tokenizeFuel, scan in Ht'F. rewrite Hsim in Ht'F.
    unfold shiftState in Ht'F. cbn [snd] in Ht'F. rewrite Hst in Ht'F.
    rewrite Ht'. exact (eq_sym Ht'F). }
  split; [exact E|]. split.
  - unfold parseAndHighlight. rewrite Ht. reflexivity.
  - unfold parseAndHighlight. rewrite E. f_equal. apply render_shift; assumption.
Qed.

Lemma tokenize_after_whitespace_witness :
  exists tokens,
    tokenize (str "a=b") = Some tokens
    /\ tokenize (str "  " ++ str "a=b") = Some (map (shiftToken 2) tokens)
    /\ parseAndHighlight (str "a=b") = Some (render (str "a=b") tokens)
    /\ parseAndHighlight (str "  " ++ str "a=b")
       = Some (str "  " ++ render (str "a=b") tokens).
Proof.
  apply (tokenize_after_whitespace (str "  ") (str "a=b")).
  repeat constructor.
Defined.

(** X17: the markup is empty exactly when the input is empty. *)
Theorem parseAndHighlight_empty (text : jsstring) :
  parseAndHighlight text = Some [] <-> text = [].
Proof.
  split.
  - intros H. destruct (render_stripped text) as (tokens & Ht & Hs).
    unfold parseAndHighlight in H. rewrite Ht in H. injection H as H.
    rewrite H in Hs. simpl in Hs.
    pose proof (escapeHtml_length_ge text) as Hl. rewrite <- Hs in Hl. simpl in Hl.
    destruct text; [reflexivity | simpl in Hl; lia].
  - intros ->. reflexivity.
Qed.
